(** * cogs/login_handler.py: rate window, operation queue and consumer loop

    A shallow embedding of the [LoginHandler] class of the Kingshot Discord
    bot.  The class is a process-wide singleton that owns

    - a sliding window of request timestamps ([api_requests]) checked
      against [rate_limit] requests per [rate_limit_window] seconds,
    - a registry of per-alliance [asyncio.Lock] objects,
    - an [asyncio.Queue] of operations drained by one background task.

    Conventions of the embedding.

    - [time.time()] returns a Python float.  Timestamps and durations are
      modelled as exact rationals ([Q]); rounding of the float arithmetic
      is outside the model.
    - Methods that mutate [self] take the object and return the new one.
    - Code suspended at an [await] is a value of type [Task]: the point
      where the coroutine waits together with its live local variables.
      What the awaited thing does is supplied from outside as an
      [Awaited] outcome, so a run of the event loop is a list of [Event]s.
    - Python exceptions are values of [PyExc]; the three handler forms the
      source uses ([except Exception], [except asyncio.CancelledError] and
      the bare [except:]) are told apart by [is_Exception]. *)

From Stdlib Require Import QArith ZArith List Lia Bool.
From stdpp Require Import gmap strings list pretty.

Set Default Proof Using "Type".

(** ** Rational comparisons as booleans *)

Definition Qltb (x y : Q) : bool := negb (Qle_bool y x).

(** Python's [max(0, x)]: the first argument is kept unless the second is
    strictly greater. *)
Definition max0 (x : Q) : Q := if Qltb 0 x then x else 0%Q.

(** ** Python values *)

(** Exceptions, by the classes the handlers of the source distinguish.
    [CancelledError] and the members of [BaseException] that are not
    [Exception]s ([KeyboardInterrupt], [SystemExit], ...) are not caught by
    [except Exception]. *)
Inductive PyExc :=
| CancelledError
| KeyError (key : string)
| Exception (msg : string)
| BaseException (msg : string).

Definition is_Exception (e : PyExc) : bool :=
  match e with
  | KeyError _ | Exception _ => true
  | CancelledError | BaseException _ => false
  end.

(** [str(e)] *)
Definition str_exc (e : PyExc) : string :=
  match e with
  | CancelledError => EmptyString
  | KeyError key => "'" +:+ key +:+ "'"
  | Exception msg => msg
  | BaseException msg => msg
  end.

(** The outcome of a call that may raise. *)
Inductive Result (A : Type) :=
| Return (a : A)
| Raise (e : PyExc).
Arguments Return {A} a.
Arguments Raise {A} e.

(** Values found under the ['alliance_id'] key: database integers or
    strings. *)
Inductive PyKey :=
| PyInt (z : Z)
| PyStr (s : string).

(** Truth value of [operation.get('alliance_id')] for a present value. *)
Definition truthy (k : PyKey) : bool :=
  match k with
  | PyInt z => negb (z =? 0)%Z
  | PyStr s => negb (String.eqb s EmptyString)
  end.

(** [str(operation['alliance_id'])] *)
Definition str_key (k : PyKey) : string :=
  match k with
  | PyInt z => pretty z
  | PyStr s => s
  end.

(** An async callable is opaque; it is known by name only. *)
Inductive Callback := Coroutine (name : string).

(** A discord interaction, likewise. *)
Inductive Interaction := DiscordInteraction (id : nat).

(** The [operation_info] dict.  A field is [None] when the key is missing
    (or, for ['alliance_id'] and ['interaction'], bound to [None]). *)
Record Operation := {
  description : option string;
  alliance_id : option PyKey;
  callback : option Callback;
  interaction : option Interaction;
  was_queued : option bool
}.

Definition set_was_queued (b : bool) (op : Operation) : Operation :=
  {| description := description op;
     alliance_id := alliance_id op;
     callback := callback op;
     interaction := interaction op;
     was_queued := Some b |}.

(** ** The handler object *)

(** Attributes of [LoginHandler].  [alliance_locks] maps a key to the
    identity of its lock object and [queue_processor_task] holds the
    identity of a task object; the objects themselves live in the event
    loop ([EventLoop] below).  [log_file] is the text appended to
    log/login_handler.txt, one entry per [log_message] call and without the
    time prefix; writing to the file is taken not to fail. *)
Record LoginHandler := {
  _initialized : bool;
  api_requests : list Q;
  rate_limit : Z;
  rate_limit_window : Q;
  api_available : bool;
  request_delay : Q;
  alliance_locks : gmap string nat;
  operation_queue : list Operation;
  current_operation : option Operation;
  queue_processor_task : option nat;
  log_file : list string
}.

Definition set_api_requests (v : list Q) (self : LoginHandler) : LoginHandler :=
  {| _initialized := _initialized self;
     api_requests := v;
     rate_limit := rate_limit self;
     rate_limit_window := rate_limit_window self;
     api_available := api_available self;
     request_delay := request_delay self;
     alliance_locks := alliance_locks self;
     operation_queue := operation_queue self;
     current_operation := current_operation self;
     queue_processor_task := queue_processor_task self;
     log_file := log_file self |}.

Definition set_alliance_locks (v : gmap string nat) (self : LoginHandler) : LoginHandler :=
  {| _initialized := _initialized self;
     api_requests := api_requests self;
     rate_limit := rate_limit self;
     rate_limit_window := rate_limit_window self;
     api_available := api_available self;
     request_delay := request_delay self;
     alliance_locks := v;
     operation_queue := operation_queue self;
     current_operation := current_operation self;
     queue_processor_task := queue_processor_task self;
     log_file := log_file self |}.

Definition set_operation_queue (v : list Operation) (self : LoginHandler) : LoginHandler :=
  {| _initialized := _initialized self;
     api_requests := api_requests self;
     rate_limit := rate_limit self;
     rate_limit_window := rate_limit_window self;
     api_available := api_available self;
     request_delay := request_delay self;
     alliance_locks := alliance_locks self;
     operation_queue := v;
     current_operation := current_operation self;
     queue_processor_task := queue_processor_task self;
     log_file := log_file self |}.

Definition set_current_operation (v : option Operation) (self : LoginHandler) : LoginHandler :=
  {| _initialized := _initialized self;
     api_requests := api_requests self;
     rate_limit := rate_limit self;
     rate_limit_window := rate_limit_window self;
     api_available := api_available self;
     request_delay := request_delay self;
     alliance_locks := alliance_locks self;
     operation_queue := operation_queue self;
     current_operation := v;
     queue_processor_task := queue_processor_task self;
     log_file := log_file self |}.

Definition set_queue_processor_task (v : option nat) (self : LoginHandler) : LoginHandler :=
  {| _initialized := _initialized self;
     api_requests := api_requests self;
     rate_limit := rate_limit self;
     rate_limit_window := rate_limit_window self;
     api_available := api_available self;
     request_delay := request_delay self;
     alliance_locks := alliance_locks self;
     operation_queue := operation_queue self;
     current_operation := current_operation self;
     queue_processor_task := v;
     log_file := log_file self |}.

(** [log_message]: one more line in the log file. *)
Definition log_message (message : string) (self : LoginHandler) : LoginHandler :=
  {| _initialized := _initialized self;
     api_requests := api_requests self;
     rate_limit := rate_limit self;
     rate_limit_window := rate_limit_window self;
     api_available := api_available self;
     request_delay := request_delay self;
     alliance_locks := alliance_locks self;
     operation_queue := operation_queue self;
     current_operation := current_operation self;
     queue_processor_task := queue_processor_task self;
     log_file := log_file self ++ [message] |}.

(** A handler as [__init__] leaves it, but for the two limiter settings
    (plain instance attributes, which a test rebinds). *)
Definition configured (limit : Z) (window : Q) : LoginHandler :=
  {| _initialized := true;
     api_requests := [];
     rate_limit := limit;
     rate_limit_window := window;
     api_available := true;
     request_delay := 2%Q;
     alliance_locks := ∅;
     operation_queue := [];
     current_operation := None;
     queue_processor_task := None;
     log_file := [] |}.

(** ** Rate limiting *)

(** The comprehension [[t for t in self.api_requests if now - t < window]]. *)
Definition in_window (now window t : Q) : bool := Qltb (now - t) window.

Definition evict (now : Q) (self : LoginHandler) : list Q :=
  List.filter (in_window now (rate_limit_window self)) (api_requests self).

(** [_check_rate_limit]; [now] is the reading of [time.time()]. *)
Definition _check_rate_limit (now : Q) (self : LoginHandler)
  : LoginHandler * (bool * Q) :=
  let self := set_api_requests (evict now self) self in
  if (Z.of_nat (length (api_requests self)) <? rate_limit self)%Z then
    (self, (true, 0%Q))
  else
    let wait_time :=
      match api_requests self with
      | t0 :: _ => (rate_limit_window self - (now - t0))%Q
      | [] => 0%Q
      end in
    (self, (false, max0 wait_time)).

(** [_record_api_request] *)
Definition _record_api_request (now : Q) (self : LoginHandler) : LoginHandler :=
  set_api_requests (api_requests self ++ [now]) self.

(** The dict returned by [get_rate_limit_info]. *)
Record RateLimitInfo := {
  api_used : Z;
  api_remaining : Z;
  total_available : Z
}.

Definition get_rate_limit_info (now : Q) (self : LoginHandler)
  : LoginHandler * RateLimitInfo :=
  let self := set_api_requests (evict now self) self in
  let used := Z.of_nat (length (api_requests self)) in
  (self, {| api_used := used;
            api_remaining := (rate_limit self - used)%Z;
            total_available := (rate_limit self - used)%Z |}).

(** The dict returned by [get_queue_info]. *)
Record QueueInfo := {
  queue_size : Z;
  qi_current_operation : option Operation;
  is_processing : bool
}.

Definition get_queue_info (self : LoginHandler) : LoginHandler * QueueInfo :=
  (self, {| queue_size := Z.of_nat (length (operation_queue self));
            qi_current_operation := current_operation self;
            is_processing :=
              match current_operation self with
              | Some _ => true
              | None => false
              end |}).

(** ** Construction: [__new__] and [__init__] *)

(** The class attribute [_instance] and the objects allocated so far; an
    object is named by its position in [heap]. *)
Record Process := {
  heap : list LoginHandler;
  _instance : option nat
}.

(** What [super().__new__(cls)] followed by [_initialized = False] gives:
    no other attribute is bound yet, which the record shows as empty
    values. *)
Definition blank : LoginHandler :=
  {| _initialized := false;
     api_requests := [];
     rate_limit := 0%Z;
     rate_limit_window := 0%Q;
     api_available := false;
     request_delay := 0%Q;
     alliance_locks := ∅;
     operation_queue := [];
     current_operation := None;
     queue_processor_task := None;
     log_file := [] |}.

Definition __new__ (p : Process) : Process * nat :=
  match _instance p with
  | None =>
      let a := length (heap p) in
      ({| heap := heap p ++ [blank]; _instance := Some a |}, a)
  | Some a => (p, a)
  end.

(** [__init__]: every attribute is bound afresh unless the object was
    initialised before.  (The SSL context and the log directory are not
    part of the model.) *)
Definition __init__ (self : LoginHandler) : LoginHandler :=
  if _initialized self then self
  else
    {| _initialized := true;
       api_requests := [];
       rate_limit := 30%Z;
       rate_limit_window := 60%Q;
       api_available := true;
       request_delay := 2%Q;
       alliance_locks := ∅;
       operation_queue := [];
       current_operation := None;
       queue_processor_task := None;
       log_file := [] |}.

(** The expression [LoginHandler()]: [__new__], then [__init__] on the
    object it returned. *)
Definition construct (p : Process) : Process * nat :=
  let '(p, a) := __new__ p in
  match heap p !! a with
  | Some self =>
      ({| heap := <[a := __init__ self]> (heap p); _instance := _instance p |}, a)
  | None => (p, a)
  end.

(** The process before the class is first instantiated. *)
Definition process_start : Process := {| heap := []; _instance := None |}.

(** ** Fetching player data *)

Inductive Status := Success | Error | RateLimited | NotFound.

(** The ['data'] payload of a response is not inspected. *)
Definition PlayerData := string.

(** [data.get('err_code', 'unknown')] *)
Inductive ErrCode :=
| Code (z : Z)
| Unknown.

(** The texts bound to ['error_message'], with their arguments. *)
Inductive ErrMsg :=
| RateLimitReached (wait : Q)
| ApiUnavailable
| RoleNotExist
| ApiError (code : ErrCode) (msg : string)
| UnexpectedRateLimit
| HttpStatus (status : Z)
| ExcText (text : string).

(** The dict returned by [fetch_player_data]; ['wait_time'] and
    ['err_code'] are [None] when the key is not in the dict. *)
Record FetchResult := {
  status : Status;
  data : option PlayerData;
  wait_time : option Q;
  error_message : option ErrMsg;
  err_code : option ErrCode
}.

(** The body of a 200 response as [response.json()] decodes it:
    [json_data] is [None] when [data.get('data')] is missing or falsy. *)
Record Json := {
  json_data : option PlayerData;
  json_err_code : option Z;
  json_msg : option string
}.

(** What one [session.post] does: it raises, or a response arrives after
    [latency] seconds with a status and (read only for status 200) a body
    whose decoding may raise. *)
Inductive NetOutcome :=
| PostRaises (e : PyExc)
| Response (latency : Q) (http_status : Z) (body : Result Json).

(** The texts handed to [progress_callback]. *)
Inductive ProgressMsg :=
| FetchingPlayer (current total : Z)
| RateLimitedWaiting (wait : Q).

(** Observable effects of a batch, in order.  [EFetched] is a ghost event:
    it marks the return of one [fetch_player_data] call. *)
Inductive Effect :=
| EProgress (current total : Z) (msg : ProgressMsg)
| ESleep (delay : Q)
| EFetched (fid : string) (result : FetchResult).

(** The handler together with its environment: a clock, the remote
    service (the n-th post gets [net n]) and the effects so far. *)
Record World := {
  w_self : LoginHandler;
  clock : Q;
  net : nat → NetOutcome;
  posts : nat;
  trace : list Effect
}.

Definition set_w_self (v : LoginHandler) (w : World) : World :=
  {| w_self := v; clock := clock w; net := net w; posts := posts w;
     trace := trace w |}.

Definition advance (d : Q) (w : World) : World :=
  {| w_self := w_self w; clock := (clock w + d)%Q; net := net w;
     posts := posts w; trace := trace w |}.

Definition count_post (w : World) : World :=
  {| w_self := w_self w; clock := clock w; net := net w;
     posts := S (posts w); trace := trace w |}.

Definition emit (e : Effect) (w : World) : World :=
  {| w_self := w_self w; clock := clock w; net := net w; posts := posts w;
     trace := trace w ++ [e] |}.

(** Computations over the world that may raise. *)
Definition M (A : Type) : Type := World → Result A * World.

#[global] Instance M_ret : MRet M := λ A a w, (Return a, w).

#[global] Instance M_bind : MBind M := λ A B f m w,
  match m w with
  | (Return a, w) => f a w
  | (Raise e, w) => (Raise e, w)
  end.

(** [await asyncio.sleep(delay)]; a delay that is not positive returns at
    once. *)
Definition sleep (delay : Q) : M unit := λ w,
  (Return (), emit (ESleep delay) (advance (max0 delay) w)).

(** The [except Exception as e] clause of [fetch_player_data]. *)
Definition fetch_except (fid : string) (e : PyExc) : M FetchResult := λ w,
  if is_Exception e then
    (Return {| status := Error; data := None; wait_time := None;
               error_message := Some (ExcText (str_exc e));
               err_code := None |},
     set_w_self
       (log_message ("Error fetching player data for FID " +:+ fid +:+ ": "
                     +:+ str_exc e) (w_self w)) w)
  else (Raise e, w).

(** The branches on a decoded 200 body. *)
Definition classify (j : Json) : FetchResult :=
  match json_data j with
  | Some d =>
      {| status := Success; data := Some d; wait_time := None;
         error_message := None; err_code := None |}
  | None =>
      if bool_decide (json_err_code j = Some 40004%Z) then
        {| status := NotFound; data := None; wait_time := None;
           error_message := Some RoleNotExist;
           err_code := Some (Code 40004) |}
      else
        let code := match json_err_code j with
                    | Some z => Code z
                    | None => Unknown
                    end in
        {| status := Error; data := None; wait_time := None;
           error_message :=
             Some (ApiError code (default "Unknown error" (json_msg j)));
           err_code := Some code |}
  end.

(** [fetch_player_data] up to its return. *)
Definition fetch_player_data_body (fid : string) (use_proxy : option string)
  : M FetchResult := λ w,
  let '(self, (can_request, wait)) := _check_rate_limit (clock w) (w_self w) in
  let w := set_w_self self w in
  if negb can_request then
    (Return {| status := RateLimited; data := None; wait_time := Some wait;
               error_message := Some (RateLimitReached wait);
               err_code := None |}, w)
  else if negb (api_available (w_self w)) then
    (Return {| status := Error; data := None; wait_time := None;
               error_message := Some ApiUnavailable; err_code := None |}, w)
  else
    let outcome := net w (posts w) in
    let w := count_post w in
    match outcome with
    | PostRaises e => fetch_except fid e w
    | Response latency http_status body =>
        let w := advance latency w in
        let w := set_w_self (_record_api_request (clock w) (w_self w)) w in
        if (http_status =? 200)%Z then
          match body with
          | Return j => (Return (classify j), w)
          | Raise e => fetch_except fid e w
          end
        else if (http_status =? 429)%Z then
          (Return {| status := RateLimited; data := None; wait_time := None;
                     error_message := Some UnexpectedRateLimit;
                     err_code := None |}, w)
        else
          (Return {| status := Error; data := None; wait_time := None;
                     error_message := Some (HttpStatus http_status);
                     err_code := None |}, w)
    end.

(** [fetch_player_data], with the ghost event at its return. *)
Definition fetch_player_data (fid : string) (use_proxy : option string)
  : M FetchResult := λ w,
  match fetch_player_data_body fid use_proxy w with
  | (Return result, w) => (Return result, emit (EFetched fid result) w)
  | (Raise e, w) => (Raise e, w)
  end.

(** A progress callback is opaque: all that matters here is whether a
    call of it raises. *)
Definition ProgressCallback := Z → Z → ProgressMsg → option PyExc.

(** [if progress_callback: await progress_callback(current, total, msg)] *)
Definition report (progress_callback : option ProgressCallback)
    (current total : Z) (msg : ProgressMsg) : M unit := λ w,
  match progress_callback with
  | None => (Return (), w)
  | Some f =>
      let w := emit (EProgress current total msg) w in
      match f current total msg with
      | None => (Return (), w)
      | Some e => (Raise e, w)
      end
  end.

(** [results[-1] = result] (the list is never empty where the source does
    this). *)
Definition set_last (results : list FetchResult) (result : FetchResult)
  : list FetchResult :=
  <[pred (length results) := result]> results.

Definition is_rate_limited (r : FetchResult) : bool :=
  match status r with
  | RateLimited => true
  | _ => false
  end.

(** One pass through the body of the [for i, fid in enumerate(fids)] loop
    of [_fetch_batch_internal], with [results] the list built so far. *)
Definition batch_iteration (progress_callback : option ProgressCallback)
    (total : Z) (i : Z) (fid : string) (results : list FetchResult)
  : M (list FetchResult) :=
  report progress_callback (i + 1) total (FetchingPlayer (i + 1) total);;
  result ← fetch_player_data fid None;
  let results := results ++ [result] in
  results ←
    (if is_rate_limited result then
       let wait := default 60%Q (wait_time result) in
       report progress_callback (i + 1) total (RateLimitedWaiting wait);;
       sleep wait;;
       result ← fetch_player_data fid None;
       mret (set_last results result)
     else mret results);
  (if (i <? total - 1)%Z then
     (λ w, sleep (request_delay (w_self w)) w) : M unit
   else mret ());;
  mret results.

(** The loop itself: [i] is the index of the head of [fids]. *)
Fixpoint batch_loop (progress_callback : option ProgressCallback)
    (total : Z) (i : Z) (fids : list string) (results : list FetchResult)
  : M (list FetchResult) :=
  match fids with
  | [] => mret results
  | fid :: rest =>
      results ← batch_iteration progress_callback total i fid results;
      batch_loop progress_callback total (i + 1) rest results
  end.

Definition _fetch_batch_internal (fids : list string)
    (progress_callback : option ProgressCallback) (total : Z)
  : M (list FetchResult) :=
  batch_loop progress_callback total 0 fids [].

(** ** The event loop: lock objects, tasks and the consumer coroutine *)

(** What an [await] gives back when the coroutine is resumed. *)
Inductive Awaited :=
| Returns
| Raises (e : PyExc).

(** The coroutine [_process_operation_queue] between two runs: not yet
    started, suspended at one of its [await]s, or finished.

    - [TGet]: at [await self.operation_queue.get()];
    - [TAcquire op l]: entering [async with] on lock object [l];
    - [TCallback op held]: at [await operation['callback']()], inside the
      [async with] block of lock [l] when [held = Some l];
    - [TSend op]: at [await operation['interaction'].followup.send(...)];
    - [TSleep d]: at [await asyncio.sleep(d)];
    - [TDone]: left the loop through [break];
    - [TRaised e]: [e] propagated out of the coroutine. *)
Inductive Task :=
| TCreated
| TGet
| TAcquire (operation : Operation) (lock : nat)
| TCallback (operation : Operation) (held : option nat)
| TSend (operation : Operation)
| TSleep (delay : Q)
| TDone
| TRaised (e : PyExc).

(** [task.done()] *)
Definition Task_done (t : Task) : bool :=
  match t with
  | TDone | TRaised _ => true
  | _ => false
  end.

(** The handler and the objects it refers to: [locks] are the
    [asyncio.Lock] objects created so far ([true] = locked), [tasks] the
    tasks made by [asyncio.create_task], each named by its position.
    [outbox] collects the [followup.send] calls issued. *)
Record EventLoop := {
  el_self : LoginHandler;
  locks : list bool;
  tasks : list Task;
  outbox : list (Interaction * string)
}.

Definition set_el_self (v : LoginHandler) (el : EventLoop) : EventLoop :=
  {| el_self := v; locks := locks el; tasks := tasks el; outbox := outbox el |}.

Definition set_locks (v : list bool) (el : EventLoop) : EventLoop :=
  {| el_self := el_self el; locks := v; tasks := tasks el; outbox := outbox el |}.

Definition set_tasks (v : list Task) (el : EventLoop) : EventLoop :=
  {| el_self := el_self el; locks := locks el; tasks := v; outbox := outbox el |}.

Definition send (i : Interaction) (text : string) (el : EventLoop) : EventLoop :=
  {| el_self := el_self el; locks := locks el; tasks := tasks el;
     outbox := outbox el ++ [(i, text)] |}.

Definition el_log (message : string) (el : EventLoop) : EventLoop :=
  set_el_self (log_message message (el_self el)) el.

(** [get_alliance_lock]: the lock bound to the key, created on first use. *)
Definition get_alliance_lock (alliance_id : string) (el : EventLoop)
  : EventLoop * nat :=
  match alliance_locks (el_self el) !! alliance_id with
  | Some l => (el, l)
  | None =>
      let l := length (locks el) in
      (set_el_self
         (set_alliance_locks (<[alliance_id := l]> (alliance_locks (el_self el)))
            (el_self el))
         (set_locks (locks el ++ [false]) el), l)
  end.

(** [not self.queue_processor_task or self.queue_processor_task.done()] *)
Definition no_live_processor (el : EventLoop) : bool :=
  match queue_processor_task (el_self el) with
  | None => true
  | Some tid =>
      match tasks el !! tid with
      | Some t => Task_done t
      | None => false
      end
  end.

(** [start_queue_processor] *)
Definition start_queue_processor (el : EventLoop) : EventLoop :=
  if no_live_processor el then
    let tid := length (tasks el) in
    el_log "Queue processor started"
      (set_el_self (set_queue_processor_task (Some tid) (el_self el))
         (set_tasks (tasks el ++ [TCreated]) el))
  else el.

(** [queue_operation].  [put] on the unbounded queue never waits, so the
    whole method runs without yielding to the event loop.  The dict handed
    in is the object that is enqueued; it is returned in the queue with
    ['was_queued'] set. *)
Definition queue_operation (operation_info : Operation) (el : EventLoop)
  : EventLoop * Result Z :=
  let current_size := length (operation_queue (el_self el)) in
  let operation_info := set_was_queued (0 <? current_size) operation_info in
  let el :=
    set_el_self
      (set_operation_queue (operation_queue (el_self el) ++ [operation_info])
         (el_self el)) el in
  let queue_size := Z.of_nat (length (operation_queue (el_self el))) in
  match description operation_info with
  | None => (el, Raise (KeyError "description"))
  | Some d =>
      let el :=
        el_log ("Operation queued: " +:+ d +:+ " (Position: "
                +:+ pretty queue_size +:+ ")") el in
      (start_queue_processor el, Return queue_size)
  end.

(** [finally: self.current_operation = None; self.operation_queue.task_done()].
    [task_done] only decrements the counter behind [Queue.join], which the
    class never calls; every [task_done] follows its own [get], so it
    cannot raise. *)
Definition finally_clause (el : EventLoop) : EventLoop :=
  set_el_self (set_current_operation None (el_self el)) el.

(** The two handlers of the outer [try] of the loop body, for an exception
    that reaches them: [break] out of the loop, log and sleep one second,
    or (no handler matches) let it leave the coroutine. *)
Definition outer_except (e : PyExc) (el : EventLoop) : EventLoop * Task :=
  match e with
  | CancelledError => (el_log "Queue processor cancelled" el, TDone)
  | _ =>
      if is_Exception e then
        (el_log ("Queue processor error: " +:+ str_exc e) el, TSleep 1)
      else (el, TRaised e)
  end.

(** An exception raised inside the inner [try] (any lock already
    released): the [except Exception as e] handler when it applies, then
    [finally]. *)
Definition inner_except (operation : Operation) (e : PyExc) (el : EventLoop)
  : EventLoop * Task :=
  if is_Exception e then
    match description operation with
    | Some d =>
        let el :=
          el_log ("Operation failed: " +:+ d +:+ " - Error: " +:+ str_exc e)
            el in
        match interaction operation with
        | Some i =>
            (send i ("❌ Operation failed: " +:+ str_exc e) el, TSend operation)
        | None => (finally_clause el, TGet)
        end
    | None => outer_except (KeyError "description") (finally_clause el)
    end
  else outer_except e (finally_clause el).

(** Leaving an [async with] block releases its lock. *)
Definition release (held : option nat) (el : EventLoop) : EventLoop :=
  match held with
  | Some l => set_locks (<[l := false]> (locks el)) el
  | None => el
  end.

(** [await operation['callback']()], reached with [held] locked. *)
Definition invoke (operation : Operation) (held : option nat) (el : EventLoop)
  : EventLoop * Task :=
  match callback operation with
  | Some _ => (el, TCallback operation held)
  | None => inner_except operation (KeyError "callback") (release held el)
  end.

(** The loop body from the return of [get] to its next [await]. *)
Definition begin_operation (operation : Operation) (el : EventLoop)
  : EventLoop * Task :=
  let el := set_el_self (set_current_operation (Some operation) (el_self el)) el in
  match description operation with
  | None => outer_except (KeyError "description") el
  | Some d =>
      let el := el_log ("Processing operation: " +:+ d) el in
      match alliance_id operation with
      | Some k =>
          if truthy k then
            let '(el, l) := get_alliance_lock (str_key k) el in
            (el, TAcquire operation l)
          else invoke operation None el
      | None => invoke operation None el
      end
  end.

(** [_process_operation_queue], as the function that runs the coroutine
    from the [await] it is suspended at ([t], resumed with [r]) to the next
    one.  [None]: the coroutine cannot be resumed this way (the queue is
    empty, the lock is taken, the task has finished). *)
Definition _process_operation_queue (t : Task) (r : Awaited) (el : EventLoop)
  : option (EventLoop * Task) :=
  match t, r with
  | TCreated, Returns => Some (el_log "Queue processor starting..." el, TGet)
  | TCreated, Raises e => Some (el, TRaised e)
  | TGet, Returns =>
      match operation_queue (el_self el) with
      | operation :: rest =>
          Some (begin_operation operation
                  (set_el_self (set_operation_queue rest (el_self el)) el))
      | [] => None
      end
  | TGet, Raises e => Some (outer_except e el)
  | TAcquire operation l, Returns =>
      match locks el !! l with
      | Some false =>
          Some (invoke operation (Some l)
                  (set_locks (<[l := true]> (locks el)) el))
      | _ => None
      end
  | TAcquire operation l, Raises e => Some (inner_except operation e el)
  | TCallback operation held, Returns =>
      let el := release held el in
      match description operation with
      | Some d =>
          Some (finally_clause (el_log ("Operation completed: " +:+ d) el), TGet)
      | None => Some (inner_except operation (KeyError "description") el)
      end
  | TCallback operation held, Raises e =>
      Some (inner_except operation e (release held el))
  | TSend operation, _ => Some (finally_clause el, TGet)
  | TSleep _, Returns => Some (el, TGet)
  | TSleep _, Raises e => Some (el, TRaised e)
  | TDone, _ => None
  | TRaised _, _ => None
  end.

(** What can happen next in the event loop: some caller runs
    [queue_operation], or a task is resumed. *)
Inductive Event :=
| Submit (operation_info : Operation)
| Resume (tid : nat) (r : Awaited).

Definition step (ev : Event) (el : EventLoop) : option EventLoop :=
  match ev with
  | Submit operation_info => Some (fst (queue_operation operation_info el))
  | Resume tid r =>
      match tasks el !! tid with
      | Some t =>
          match _process_operation_queue t r el with
          | Some (el, t) => Some (set_tasks (<[tid := t]> (tasks el)) el)
          | None => None
          end
      | None => None
      end
  end.

Fixpoint run (evs : list Event) (el : EventLoop) : option EventLoop :=
  match evs with
  | [] => Some el
  | ev :: evs =>
      match step ev el with
      | Some el => run evs el
      | None => None
      end
  end.

(** The event loop right after the handler is first constructed. *)
Definition boot : EventLoop :=
  {| el_self := __init__ blank; locks := []; tasks := []; outbox := [] |}.

(** States the event loop can be in. *)
Definition reachable (el : EventLoop) : Prop :=
  ∃ evs, run evs boot = Some el.

(** The lock objects held by the tasks of the pool. *)
Definition held_by (t : Task) : list nat :=
  match t with
  | TCallback _ (Some l) => [l]
  | _ => []
  end.

Definition holders (l : nat) (el : EventLoop) : nat :=
  length (List.filter (Nat.eqb l) (concat (map held_by (tasks el)))).

(** The operations whose callback is executing. *)
Definition executing (t : Task) : list Operation :=
  match t with
  | TCallback operation _ => [operation]
  | _ => []
  end.

Definition running (el : EventLoop) : list Operation :=
  concat (map executing (tasks el)).

(** The class attribute never dangles. *)
Definition instance_allocated (p : Process) : Prop :=
  ∀ a, _instance p = Some a → (a < length (heap p))%nat.

(** A world in which the window holds 31 timestamps, the first of them
    expired, under the limit of 30 that [__init__] sets. *)
Definition crowded_world : World :=
  {| w_self := set_api_requests (0 :: repeat 100 30)%Q (__init__ blank);
     clock := 110%Q;
     net := λ _, PostRaises (Exception "unreachable");
     posts := 0;
     trace := [] |}.

(** ** What a batch is expected to do *)

(** The effects of a batch and the list it returns, written from the
    description of the retry policy.  [fid_shape]: a fid is fetched once;
    a fetch that comes back rate limited is followed by a sleep of its
    advisory wait (60 when the result carries none) and by one more fetch
    of the same fid, whose result is the one returned for that fid.
    [batch_shape]: the fids are served in order, from index [i] on, one
    result each.  Progress calls appear when a callback was given, and a
    pause of [delay] follows every fid but the last. *)
Definition progress_of (with_callback : bool) (current total : Z)
    (msg : ProgressMsg) : list Effect :=
  if with_callback then [EProgress current total msg] else [].

Definition pause_of (delay : Q) (i total : Z) : list Effect :=
  if (i <? total - 1)%Z then [ESleep delay] else [].

Inductive fid_shape (with_callback : bool) (total : Z) (delay : Q) (i : Z)
    (fid : string) : FetchResult → list Effect → Prop :=
| shape_once r :
    is_rate_limited r = false →
    fid_shape with_callback total delay i fid r
      (progress_of with_callback (i + 1) total (FetchingPlayer (i + 1) total)
       ++ [EFetched fid r]
       ++ pause_of delay i total)
| shape_retry r1 r2 :
    is_rate_limited r1 = true →
    fid_shape with_callback total delay i fid r2
      (progress_of with_callback (i + 1) total (FetchingPlayer (i + 1) total)
       ++ [EFetched fid r1]
       ++ progress_of with_callback (i + 1) total
            (RateLimitedWaiting (default 60%Q (wait_time r1)))
       ++ [ESleep (default 60%Q (wait_time r1))]
       ++ [EFetched fid r2]
       ++ pause_of delay i total).

Inductive batch_shape (with_callback : bool) (total : Z) (delay : Q)
  : Z → list string → list FetchResult → list Effect → Prop :=
| shape_nil (i : Z) :
    batch_shape with_callback total delay i [] [] []
| shape_cons (i : Z) fid fids r rs tr1 tr2 :
    fid_shape with_callback total delay i fid r tr1 →
    batch_shape with_callback total delay (i + 1) fids rs tr2 →
    batch_shape with_callback total delay i (fid :: fids) (r :: rs)
      (tr1 ++ tr2).

(** An environment in which nothing but [Exception]s is raised: the
    progress callback returns, and the remote service fails only in ways
    [except Exception] catches. *)
Definition callback_returns (progress_callback : option ProgressCallback)
  : Prop :=
  match progress_callback with
  | Some f => ∀ current total msg, f current total msg = None
  | None => True
  end.

Definition outcome_caught (o : NetOutcome) : bool :=
  match o with
  | PostRaises e => is_Exception e
  | Response _ _ (Raise e) => is_Exception e
  | Response _ _ (Return _) => true
  end.

Definition service_caught (w : World) : Prop :=
  ∀ n, outcome_caught (net w n) = true.

(** The part of the handler a fetch has no business with. *)
Definition same_scheduler (self self' : LoginHandler) : Prop :=
  operation_queue self' = operation_queue self
  ∧ current_operation self' = current_operation self
  ∧ alliance_locks self' = alliance_locks self
  ∧ queue_processor_task self' = queue_processor_task self
  ∧ request_delay self' = request_delay self
  ∧ rate_limit self' = rate_limit self
  ∧ rate_limit_window self' = rate_limit_window self.

(** The timestamps one call of [fetch_player_data] adds to the window: one
    when the request was let through and a response came back, none
    otherwise. *)
Definition recorded (w : World) : list Q :=
  let permitted := fst (snd (_check_rate_limit (clock w) (w_self w))) in
  if permitted && api_available (w_self w) then
    match net w (posts w) with
    | Response latency _ _ => [(clock w + latency)%Q]
    | PostRaises _ => []
    end
  else [].

(** Whether a progress callback was passed. *)
Definition given (progress_callback : option ProgressCallback) : bool :=
  match progress_callback with
  | Some _ => true
  | None => false
  end.

(** A world for a worked batch: limit 1, one request recorded 30 seconds
    ago, and a service that answers every post after half a second. *)
Definition busy_world : World :=
  {| w_self := set_api_requests [0%Q] (configured 1 60);
     clock := 30%Q;
     net := λ _, Response (1 # 2) 200
                   (Return {| json_data := Some "player";
                              json_err_code := None;
                              json_msg := None |});
     posts := 0;
     trace := [] |}.

(** ** Consistency of the event loop *)

(** The key an operation is serialised under, when it has one:
    [str(operation['alliance_id'])] for a truthy ['alliance_id']. *)
Definition group_key (operation : Operation) : option string :=
  match alliance_id operation with
  | Some k => if truthy k then Some (str_key k) else None
  | None => None
  end.

(** What is known of a suspended task from the code it has run through:
    an operation whose lock is being acquired or whose callback runs has a
    description; a running callback exists, and runs inside the lock that
    is registered for the key of its operation, if that has a key. *)
Definition task_ok (el : EventLoop) (t : Task) : Prop :=
  match t with
  | TAcquire operation l =>
      is_Some (description operation)
      ∧ ∃ k, group_key operation = Some k
             ∧ alliance_locks (el_self el) !! k = Some l
  | TCallback operation held =>
      is_Some (description operation)
      ∧ is_Some (callback operation)
      ∧ match group_key operation with
        | Some k => ∃ l, held = Some l
                         ∧ alliance_locks (el_self el) !! k = Some l
        | None => held = None
        end
  | _ => True
  end.

(** Every registered key names an existing lock object. *)
Definition registry_ok (el : EventLoop) : Prop :=
  ∀ k l, alliance_locks (el_self el) !! k = Some l → (l < length (locks el))%nat.

(** The invariant of the event loop:
    - the task handle of the handler names an existing task;
    - every task that has not finished is the one the handle names;
    - the registry is sound;
    - a lock is locked exactly when some task holds it;
    - every task is as [task_ok] says. *)
Definition consistent (el : EventLoop) : Prop :=
  (∀ tid, queue_processor_task (el_self el) = Some tid →
          (tid < length (tasks el))%nat)
  ∧ (∀ i t, tasks el !! i = Some t → Task_done t = false →
            queue_processor_task (el_self el) = Some i)
  ∧ registry_ok el
  ∧ (∀ l, locks el !! l = Some true ↔
          ∃ i t, tasks el !! i = Some t ∧ In l (held_by t))
  ∧ (∀ i t, tasks el !! i = Some t → task_ok el t).

(** Task points at which no operation is between lock and callback. *)
Definition passive (t : Task) : bool :=
  match t with
  | TAcquire _ _ | TCallback _ _ => false
  | _ => true
  end.

(** Two states of the event loop with the same lock objects, tasks,
    registry, task handle and queue. *)
Definition same_objects (el el' : EventLoop) : Prop :=
  locks el' = locks el
  ∧ tasks el' = tasks el
  ∧ alliance_locks (el_self el') = alliance_locks (el_self el)
  ∧ queue_processor_task (el_self el') = queue_processor_task (el_self el)
  ∧ operation_queue (el_self el') = operation_queue (el_self el).

(** What one run of the coroutine, from [el] to [el'] and the point [t'],
    keeps of the invariant. *)
Definition sound_after (el el' : EventLoop) (t' : Task) : Prop :=
  tasks el' = tasks el
  ∧ queue_processor_task (el_self el') = queue_processor_task (el_self el)
  ∧ registry_ok el'
  ∧ (∀ k l, alliance_locks (el_self el) !! k = Some l →
            alliance_locks (el_self el') !! k = Some l)
  ∧ (∀ l, locks el' !! l = Some true ↔ In l (held_by t'))
  ∧ task_ok el' t'.

(** ** Sample operations *)

(** Three operations without a group and without an interaction. *)
Definition plain_operation (name : string) : Operation :=
  {| description := Some name; alliance_id := None;
     callback := Some (Coroutine name); interaction := None;
     was_queued := None |}.

Definition first_operation : Operation := plain_operation "first".
Definition second_operation : Operation := plain_operation "second".
Definition third_operation : Operation := plain_operation "third".

(** An operation of alliance 7 that reports failures to an interaction. *)
Definition alliance_operation : Operation :=
  {| description := Some "sync alliance 7"; alliance_id := Some (PyInt 7);
     callback := Some (Coroutine "sync"); interaction := Some (DiscordInteraction 1);
     was_queued := None |}.

(** The state in which the consumer is inside the callback of
    [alliance_operation], the only operation submitted so far. *)
Definition alliance_events : list Event :=
  [Submit alliance_operation; Resume 0 Returns; Resume 0 Returns;
   Resume 0 Returns].

Definition alliance_running : EventLoop :=
  default boot (run alliance_events boot).

(** ** Runs of the consumer around one operation *)

(** The events by which the consumer leaves a callback that raised [e]:
    the callback raises; when the operation has an interaction the
    failure is sent to it, and [sent] is how that [send] ends. *)
Definition failure_events (tid : nat) (operation : Operation) (e : PyExc)
    (sent : Awaited) : list Event :=
  Resume tid (Raises e)
  :: match interaction operation with
     | Some _ => [Resume tid sent]
     | None => []
     end.

(** The events by which the consumer takes the next operation up to its
    callback: [get] returns, and the lock of the group, if the operation
    has one, is acquired. *)
Definition dispatch_events (tid : nat) (operation : Operation) : list Event :=
  Resume tid Returns
  :: match group_key operation with
     | Some _ => [Resume tid Returns]
     | None => []
     end.

(** [alliance_operation] then [second_operation] are submitted and the
    consumer runs up to the callback of the first. *)
Definition two_queued_events : list Event :=
  [Submit alliance_operation; Submit second_operation;
   Resume 0 Returns; Resume 0 Returns; Resume 0 Returns].

Definition two_queued : EventLoop :=
  default boot (run two_queued_events boot).

(** From there the callback raises out of the three kinds of exception. *)
Definition after_callback_raised (e : PyExc) : EventLoop :=
  default boot (run [Resume 0 (Raises e)] two_queued).

(** The handler after the calls made at the times [calls], in that order,
    were recorded on an empty window. *)
Definition after_calls (calls : list Q) (self : LoginHandler) : LoginHandler :=
  foldl (λ s t, _record_api_request t s) (set_api_requests [] self) calls.

(** ** The rest of the class *)

(** [_get_wait_time]: the wait until the first timestamp of the window
    expires; unlike [_check_rate_limit] it evicts nothing. *)
Definition _get_wait_time (now : Q) (self : LoginHandler) : Q :=
  let wait_time :=
    match api_requests self with
    | t0 :: _ => (rate_limit_window self - (now - t0))%Q
    | [] => 0%Q
    end in
  max0 wait_time.

Definition set_api_available (v : bool) (self : LoginHandler) : LoginHandler :=
  {| _initialized := _initialized self;
     api_requests := api_requests self;
     rate_limit := rate_limit self;
     rate_limit_window := rate_limit_window self;
     api_available := v;
     request_delay := request_delay self;
     alliance_locks := alliance_locks self;
     operation_queue := operation_queue self;
     current_operation := current_operation self;
     queue_processor_task := queue_processor_task self;
     log_file := log_file self |}.

(** [self.api_url] *)
Definition api_url : string :=
  "https://kingshot-giftcode.centurygame.com/api/player".

(** The dict returned by [check_api_availability]. *)
Record ApiStatus := {
  status_api_available : bool;
  status_api_url : string
}.

(** [response.status in [200, 429]] *)
Definition status_means_available (http_status : Z) : bool :=
  (http_status =? 200)%Z || (http_status =? 429)%Z.

(** [check_api_availability]: one post to the service; the body of the
    response is not read.  An exception that [except Exception] does not
    catch leaves the method before [self.api_available] is assigned. *)
Definition check_api_availability (test_fid : string) : M ApiStatus := λ w,
  let outcome := net w (posts w) in
  let w := count_post w in
  let finish (available : bool) (w : World) : Result ApiStatus * World :=
    (Return {| status_api_available := available; status_api_url := api_url |},
     set_w_self (set_api_available available (w_self w)) w) in
  match outcome with
  | Response latency http_status _ =>
      let w := advance latency w in
      let w :=
        set_w_self
          (log_message ("Kingshot API availability check: Status "
                        +:+ pretty http_status) (w_self w)) w in
      finish (status_means_available http_status) w
  | PostRaises e =>
      if is_Exception e then
        let w :=
          set_w_self
            (log_message ("Kingshot API availability check failed: "
                          +:+ str_exc e) (w_self w)) w in
        finish false w
      else (Raise e, w)
  end.

(** [get_mode_text] *)
Definition get_mode_text (self : LoginHandler) : string :=
  if api_available self then "✅ Kingshot API active (1 member/2 seconds)"
  else "❌ Kingshot API unavailable".

(** [get_processing_rate] *)
Definition get_processing_rate (self : LoginHandler) : string :=
  if api_available self then "⚡ Rate: 1 member/2 seconds"
  else "❌ Service unavailable".

(** The window holds no more timestamps than the limit allows. *)
Definition within_quota (self : LoginHandler) : Prop :=
  (Z.of_nat (length (api_requests self)) ≤ rate_limit self)%Z.

(** ** [fetch_player_batch] *)

(** [fetch_player_batch], run with no other task stepping in between: the
    handler of the event loop [el] meets the environment [env] (clock,
    service, effects; its own [w_self] is not read).  With a truthy
    [alliance_id] the batch runs inside [async with] on the lock of that
    key, which is released whether the batch returns or raises.  [None]:
    the lock is taken, the call waits. *)
Definition run_batch (fids : list string)
    (progress_callback : option ProgressCallback) (el : EventLoop) (env : World)
  : Result (list FetchResult) * EventLoop * World :=
  let total := Z.of_nat (length fids) in
  let out := _fetch_batch_internal fids progress_callback total
               (set_w_self (el_self el) env) in
  (fst out, set_el_self (w_self (snd out)) el, snd out).

Definition fetch_player_batch (fids : list string)
    (progress_callback : option ProgressCallback) (alliance_id : option string)
    (el : EventLoop) (env : World)
  : option (Result (list FetchResult) * EventLoop * World) :=
  match alliance_id with
  | Some k =>
      if negb (String.eqb k EmptyString) then
        let '(el, l) := get_alliance_lock k el in
        match locks el !! l with
        | Some false =>
            let el := set_locks (<[l := true]> (locks el)) el in
            let '(r, el, env) := run_batch fids progress_callback el env in
            Some (r, release (Some l) el, env)
        | _ => None
        end
      else Some (run_batch fids progress_callback el env)
  | None => Some (run_batch fids progress_callback el env)
  end.

(** ** Processing a queue *)

(** No two keys of the registry share a lock object. *)
Definition registry_inj (el : EventLoop) : Prop :=
  ∀ k1 k2 l, alliance_locks (el_self el) !! k1 = Some l →
             alliance_locks (el_self el) !! k2 = Some l → k1 = k2.

(** The operations handed to [queue_operation] in a run, in order. *)
Definition submissions (evs : list Event) : list Operation :=
  flat_map (λ ev, match ev with
                  | Submit operation_info => [operation_info]
                  | Resume _ _ => []
                  end) evs.

(** An operation dict with the keys the consumer reads. *)
Definition well_formed (operation : Operation) : Prop :=
  is_Some (description operation) ∧ is_Some (callback operation).

(** The events by which the consumer serves one operation whose callback
    ends as [r], and the lines it writes to the log meanwhile. *)
Definition serve_events (tid : nat) (job : Operation * Awaited) : list Event :=
  dispatch_events tid (fst job)
  ++ match snd job with
     | Returns => [Resume tid Returns]
     | Raises e => failure_events tid (fst job) e Returns
     end.

Definition serve_log (job : Operation * Awaited) : list string :=
  let d := default EmptyString (description (fst job)) in
  ["Processing operation: " +:+ d;
   match snd job with
   | Returns => "Operation completed: " +:+ d
   | Raises e => "Operation failed: " +:+ d +:+ " - Error: " +:+ str_exc e
   end].

(** What is sent to the interaction of the operation, if any. *)
Definition serve_outbox (job : Operation * Awaited) : list (Interaction * string) :=
  match snd job, interaction (fst job) with
  | Raises e, Some i => [(i, "❌ Operation failed: " +:+ str_exc e)]
  | _, _ => []
  end.

(** A callback outcome that the per-operation handler deals with. *)
Definition handled (r : Awaited) : bool :=
  match r with
  | Returns => true
  | Raises e => is_Exception e
  end.

(** Two operations are queued and the consumer has just started. *)
Definition idle_two : EventLoop :=
  default boot
    (run [Submit alliance_operation; Submit second_operation; Resume 0 Returns]
       boot).

(** A dict without the ['description'] key. *)
Definition undescribed_operation : Operation :=
  {| description := None; alliance_id := None;
     callback := Some (Coroutine "anonymous"); interaction := None;
     was_queued := None |}.

(** How an enqueued dict relates to the one handed to [queue_operation]. *)
Definition queued_as (queued operation_info : Operation) : Prop :=
  ∃ flag, queued = set_was_queued flag operation_info.

(** * Properties *)

(** ** The rate window *)

Section RateWindow.

Lemma Qltb_lt (x y : Q) : Qltb x y = true ↔ (x < y)%Q.
Proof.
  unfold Qltb. rewrite negb_true_iff. split.
  - intros H. apply Qnot_le_lt. intros Hle.
    apply Qle_bool_iff in Hle. congruence.
  - intros H. destruct (Qle_bool y x) eqn:E; [|done].
    apply Qle_bool_iff in E. by apply Qlt_not_le in H.
Qed.

Lemma Qltb_ge (x y : Q) : Qltb x y = false ↔ (y <= x)%Q.
Proof.
  unfold Qltb. rewrite negb_false_iff. apply Qle_bool_iff.
Qed.

Lemma max0_of_pos (x : Q) : (0 < x)%Q → max0 x = x.
Proof. intros H. unfold max0. by apply Qltb_lt in H as ->. Qed.

Lemma max0_nonneg (x : Q) : (0 <= max0 x)%Q.
Proof.
  unfold max0. destruct (Qltb 0 x) eqn:E.
  - apply Qltb_lt in E. by apply Qlt_le_weak.
  - apply Qle_refl.
Qed.

Lemma in_window_lt (now window t : Q) :
  in_window now window t = true ↔ (now - t < window)%Q.
Proof. apply Qltb_lt. Qed.

Lemma evict_all_in_window (now : Q) (self : LoginHandler) :
  Forall (λ t, (now - t < rate_limit_window self)%Q) (api_requests self) →
  evict now self = api_requests self.
Proof.
  unfold evict. induction 1 as [|t l Ht _ IH]; [done|].
  simpl. apply in_window_lt in Ht. by rewrite Ht, IH.
Qed.

Lemma evict_length (now : Q) (self : LoginHandler) :
  (length (evict now self) ≤ length (api_requests self))%nat.
Proof. apply List.filter_length_le. Qed.

(** A filter that keeps as many elements as there were kept them all. *)
Lemma filter_full_length {A} (f : A → bool) (l : list A) :
  length (List.filter f l) = length l → List.filter f l = l.
Proof.
  induction l as [|a l IH]; [done|]. simpl.
  destruct (f a); simpl; intros H.
  - f_equal. apply IH. lia.
  - pose proof (List.filter_length_le f l). lia.
Qed.

(** The wait computed from a timestamp that survived eviction is
    positive. *)
Lemma wait_positive (now window t : Q) :
  (now - t < window)%Q → (0 < max0 (window - (now - t)))%Q.
Proof.
  intros H. assert (0 < window - (now - t))%Q as Hpos.
  { rewrite <- (Qplus_opp_r (now - t)). unfold Qminus at 2.
    by apply Qplus_lt_l. }
  by rewrite max0_of_pos.
Qed.

End RateWindow.

Section CheckAvailability.

Lemma in_window_same (now window : Q) :
  (0 < window)%Q → in_window now window now = true.
Proof.
  intros H. apply in_window_lt. unfold Qminus. by rewrite Qplus_opp_r.
Qed.

Lemma in_window_expired (now window t d : Q) :
  (window <= d)%Q → in_window (t + d) window t = false.
Proof.
  intros H. apply Qltb_ge.
  assert (t + d - t == d)%Q as -> by ring. done.
Qed.

Lemma check_permitted (now : Q) (self : LoginHandler) :
  (Z.of_nat (length (evict now self)) < rate_limit self)%Z →
  _check_rate_limit now self
  = (set_api_requests (evict now self) self, (true, 0%Q)).
Proof.
  intros H. unfold _check_rate_limit. cbn zeta.
  replace (api_requests (set_api_requests (evict now self) self))
    with (evict now self) by done.
  replace (rate_limit (set_api_requests (evict now self) self))
    with (rate_limit self) by done.
  by apply Z.ltb_lt in H as ->.
Qed.

Lemma check_refused (now : Q) (self : LoginHandler) :
  (rate_limit self ≤ Z.of_nat (length (evict now self)))%Z →
  _check_rate_limit now self
  = (set_api_requests (evict now self) self,
     (false,
      max0 match evict now self with
           | t0 :: _ => (rate_limit_window self - (now - t0))%Q
           | [] => 0%Q
           end)).
Proof.
  intros H. unfold _check_rate_limit. cbn zeta.
  replace (api_requests (set_api_requests (evict now self) self))
    with (evict now self) by done.
  replace (rate_limit (set_api_requests (evict now self) self))
    with (rate_limit self) by done.
  by apply Z.ltb_ge in H as ->.
Qed.

(** C1.  [_check_rate_limit] first drops the timestamps that are no longer
    inside the window (none older than [rate_limit_window] is left), then
    permits the request exactly when fewer than [rate_limit] timestamps
    remain; when it does not permit, the wait is
    [rate_limit_window - (now - oldest)] floored at 0.  With limit 2 and
    window 60 under a fixed clock [T]: check gives (True, 0); after two
    recorded calls check gives (False, 60); 61 seconds later check gives
    (True, 0) again. *)
Theorem check_rate_limit_spec :
  (∀ (now : Q) (self : LoginHandler),
     let self' := fst (_check_rate_limit now self) in
     let permitted := fst (snd (_check_rate_limit now self)) in
     let wait := snd (snd (_check_rate_limit now self)) in
     self' = set_api_requests
               (List.filter (λ t, Qltb (now - t) (rate_limit_window self))
                  (api_requests self)) self
     ∧ (∀ t, In t (api_requests self') ↔
             In t (api_requests self) ∧ (now - t < rate_limit_window self)%Q)
     ∧ permitted = (Z.of_nat (length (api_requests self')) <? rate_limit self)%Z
     ∧ wait = (if permitted then 0%Q
               else match api_requests self' with
                    | oldest :: _ =>
                        max0 (rate_limit_window self - (now - oldest))
                    | [] => 0%Q
                    end)
     ∧ (0 <= wait)%Q)
  ∧ (∀ T : Q,
       let s0 := configured 2 60 in
       let '(s1, r1) := _check_rate_limit T s0 in
       let s2 := _record_api_request T s1 in
       let s3 := _record_api_request T s2 in
       let '(s4, r2) := _check_rate_limit T s3 in
       let '(s5, r3) := _check_rate_limit (T + 61) s4 in
       r1 = (true, 0%Q)
       ∧ fst r2 = false ∧ (snd r2 == 60)%Q
       ∧ r3 = (true, 0%Q)
       ∧ api_requests s5 = []).
Proof.
  split.
  - intros now self. cbn zeta. unfold _check_rate_limit. cbn zeta.
    set (kept := evict now self).
    replace (api_requests (set_api_requests kept self)) with kept by done.
    replace (rate_limit (set_api_requests kept self))
      with (rate_limit self) by done.
    replace (rate_limit_window (set_api_requests kept self))
      with (rate_limit_window self) by done.
    assert (∀ t, In t kept ↔
                 In t (api_requests self) ∧ (now - t < rate_limit_window self)%Q)
      as Hkept.
    { intros t. subst kept. unfold evict. rewrite List.filter_In.
      by rewrite in_window_lt. }
    destruct (Z.of_nat (length kept) <? rate_limit self)%Z eqn:E; cbn.
    + by rewrite E.
    + rewrite E. split; [done|]. split; [done|]. split; [done|].
      split; [by destruct kept|]. apply max0_nonneg.
  - intros T. cbn zeta.
    assert (in_window T 60 T = true) as Hin by (by apply in_window_same).
    assert (in_window (T + 61) 60 T = false) as Hout
      by (by apply in_window_expired).
    rewrite check_permitted by (cbn; lia).
    set (s3 := _record_api_request T (_record_api_request T _)).
    assert (evict T s3 = [T; T]) as Hs3.
    { unfold evict. cbn -[in_window]. by rewrite Hin. }
    rewrite check_refused by (rewrite Hs3; cbn; lia).
    rewrite Hs3.
    set (s4 := set_api_requests [T; T] s3).
    assert (evict (T + 61) s4 = []) as Hs4.
    { unfold evict. cbn -[in_window Qplus]. by rewrite Hout. }
    rewrite check_permitted by (rewrite Hs4; cbn; lia).
    rewrite Hs4.
    split; [done|]. split; [done|]. split; [|done].
    cbn -[max0 Qminus].
    assert (0 < 60 - (T - T))%Q as Hpos.
    { assert (60 - (T - T) == 60)%Q as -> by ring. done. }
    rewrite (max0_of_pos _ Hpos). ring.
Qed.

End CheckAvailability.

Section Introspection.

Lemma after_calls_window (calls : list Q) (self : LoginHandler) :
  api_requests (after_calls calls self) = calls
  ∧ rate_limit (after_calls calls self) = rate_limit self
  ∧ rate_limit_window (after_calls calls self) = rate_limit_window self.
Proof.
  unfold after_calls.
  assert (∀ s, api_requests (foldl (λ s t, _record_api_request t s) s calls)
               = api_requests s ++ calls
               ∧ rate_limit (foldl (λ s t, _record_api_request t s) s calls)
                 = rate_limit s
               ∧ rate_limit_window (foldl (λ s t, _record_api_request t s) s calls)
                 = rate_limit_window s) as H.
  { induction calls as [|t calls IH]; intros s; cbn [foldl].
    - by rewrite app_nil_r.
    - destruct (IH (_record_api_request t s)) as (-> & -> & ->).
      cbn. by rewrite <- app_assoc. }
  apply (H (set_api_requests [] self)).
Qed.

(** C6.  After [N] calls were recorded, all within the last
    [rate_limit_window] seconds: if [N <= rate_limit] then
    [get_rate_limit_info] evicts nothing and reports
    [api_remaining = rate_limit - N]; if [N > rate_limit] then
    [_check_rate_limit] refuses with a strictly positive wait, the oldest
    timestamp being younger than the window.  (The limit is a count: it is
    not negative.) *)
Theorem window_count_spec (now : Q) (calls : list Q) (self0 : LoginHandler) :
  Forall (λ t, (now - t < rate_limit_window self0)%Q) calls →
  (0 ≤ rate_limit self0)%Z →
  let self := after_calls calls self0 in
  let N := Z.of_nat (length calls) in
  (N ≤ rate_limit self →
     api_requests (fst (get_rate_limit_info now self)) = calls
     ∧ api_remaining (snd (get_rate_limit_info now self)) = rate_limit self - N)%Z
  ∧ (rate_limit self < N →
     fst (snd (_check_rate_limit now self)) = false
     ∧ (0 < snd (snd (_check_rate_limit now self)))%Q)%Z.
Proof.
  intros Hin Hlimit self N.
  destruct (after_calls_window calls self0) as (Hreq & Hlim & Hwin).
  fold self in Hreq, Hlim, Hwin.
  assert (evict now self = calls) as Hev.
  { pose proof (evict_all_in_window now self) as H.
    rewrite Hreq, Hwin in H. by apply H. }
  split.
  - intros _. unfold get_rate_limit_info. cbn. by rewrite Hev.
  - intros HN. rewrite check_refused by (rewrite Hev; subst N; lia).
    cbn [fst snd]. split; [done|]. rewrite Hev, Hwin.
    destruct calls as [|t0 l].
    + subst N. cbn in HN. lia.
    + apply wait_positive. by inversion Hin.
Qed.

Lemma window_count_spec_witness :
  let self := after_calls [1; 2; 3]%Q (configured 2 60) in
  (rate_limit self < 3)%Z
  ∧ fst (snd (_check_rate_limit 10 self)) = false
  ∧ (0 < snd (snd (_check_rate_limit 10 self)))%Q.
Proof.
  split; [by vm_compute|].
  destruct (window_count_spec 10 [1; 2; 3]%Q (configured 2 60)) as [_ H].
  - repeat constructor.
  - by vm_compute.
  - apply H. by vm_compute.
Defined.

(** C9.  [get_queue_info] changes nothing.  [get_rate_limit_info] changes
    only [api_requests], from which it drops the timestamps outside the
    window and keeps the others as they were; the queue, the current
    operation, the lock registry and the task handle are the same after
    the call.  It reports [api_used] = the length of the window after
    eviction and [api_remaining] = [rate_limit - api_used]. *)
Theorem introspection_frame (now : Q) (self : LoginHandler) :
  fst (get_queue_info self) = self
  ∧ queue_size (snd (get_queue_info self))
    = Z.of_nat (length (operation_queue self))
  ∧ qi_current_operation (snd (get_queue_info self)) = current_operation self
  ∧ let self' := fst (get_rate_limit_info now self) in
    let info := snd (get_rate_limit_info now self) in
    self' = set_api_requests (api_requests self') self
    ∧ operation_queue self' = operation_queue self
    ∧ current_operation self' = current_operation self
    ∧ alliance_locks self' = alliance_locks self
    ∧ queue_processor_task self' = queue_processor_task self
    ∧ api_requests self'
      = List.filter (λ t, Qltb (now - t) (rate_limit_window self))
          (api_requests self)
    ∧ (∀ t, In t (api_requests self') ↔
            In t (api_requests self) ∧ (now - t < rate_limit_window self)%Q)
    ∧ api_used info = Z.of_nat (length (api_requests self'))
    ∧ api_remaining info = (rate_limit self - api_used info)%Z.
Proof.
  split; [done|]. split; [done|]. split; [done|]. cbn zeta.
  unfold get_rate_limit_info. cbn [fst snd].
  repeat (split; [done|]). split; [|done].
  intros t. cbn. unfold evict. rewrite List.filter_In.
  by rewrite in_window_lt.
Qed.

End Introspection.

Section Singleton.

(** Once the class has an initialised instance, constructing is the
    identity on the process. *)
Lemma construct_initialized (p : Process) (a : nat) (self : LoginHandler) :
  _instance p = Some a →
  heap p !! a = Some self →
  _initialized self = true →
  construct p = (p, a).
Proof.
  intros Hi Hh Hinit. unfold construct, __new__. rewrite Hi, Hh.
  unfold __init__. rewrite Hinit. rewrite list_insert_id by done.
  by destruct p; cbn in *; subst.
Qed.

Lemma construct_gives_initialized (p : Process) :
  instance_allocated p →
  let p' := fst (construct p) in
  let a := snd (construct p) in
  _instance p' = Some a
  ∧ ∃ self, heap p' !! a = Some self ∧ _initialized self = true.
Proof.
  intros Hp. unfold construct, __new__.
  destruct (_instance p) as [a|] eqn:Hi.
  - destruct (lookup_lt_is_Some_2 (heap p) a (Hp a Hi)) as [self Hself].
    rewrite Hself. cbn. split; [done|].
    exists (__init__ self). split.
    + apply list_lookup_insert_eq. by eapply lookup_lt_Some.
    + unfold __init__. by destruct (_initialized self) eqn:E.
  - cbn. rewrite lookup_app_r by done. rewrite Nat.sub_diag. cbn.
    split; [done|]. eexists. split.
    + apply list_lookup_insert_eq. rewrite length_app. cbn. lia.
    + done.
Qed.

(** C10.  In a process whose class attribute [_instance] refers to an
    allocated object (as it does from the start of the process on), every
    [LoginHandler()] returns the one instance, and each construction after
    the first leaves the whole process as it is, whatever state the
    handler has accumulated in between: window, lock registry, queue and
    task handle are preserved. *)
Theorem construct_singleton (p : Process) :
  instance_allocated p →
  let p1 := fst (construct p) in
  let a := snd (construct p) in
  construct p1 = (p1, a)
  ∧ ∀ (self : LoginHandler),
      _initialized self = true →
      let p2 := {| heap := <[a := self]> (heap p1); _instance := _instance p1 |} in
      construct p2 = (p2, a) ∧ heap p2 !! a = Some self.
Proof.
  intros Hp. cbn zeta.
  destruct (construct_gives_initialized p Hp) as (Hi & self & Hself & Hinit).
  split.
  - by eapply construct_initialized.
  - intros self2 Hinit2.
    assert (<[snd (construct p) := self2]> (heap (fst (construct p)))
              !! snd (construct p) = Some self2) as Hl.
    { apply list_lookup_insert_eq. by eapply lookup_lt_Some. }
    split; [|done]. by eapply construct_initialized.
Qed.

Lemma construct_singleton_witness :
  let p1 := fst (construct process_start) in
  let a := snd (construct process_start) in
  construct p1 = (p1, a)
  ∧ ∀ (self : LoginHandler),
      _initialized self = true →
      let p2 := {| heap := <[a := self]> (heap p1); _instance := _instance p1 |} in
      construct p2 = (p2, a) ∧ heap p2 !! a = Some self.
Proof.
  apply (construct_singleton process_start).
  intros a Ha. cbn in Ha. discriminate Ha.
Defined.

End Singleton.

Section Fetch.

Lemma same_scheduler_refl (self : LoginHandler) : same_scheduler self self.
Proof. by repeat split. Qed.

Lemma same_scheduler_trans (a b c : LoginHandler) :
  same_scheduler a b → same_scheduler b c → same_scheduler a c.
Proof.
  unfold same_scheduler. intros (?&?&?&?&?&?&?) (?&?&?&?&?&?&?).
  repeat split; congruence.
Qed.

Lemma fetch_body_window (fid : string) (use_proxy : option string) (w : World) :
  let w' := snd (fetch_player_data_body fid use_proxy w) in
  api_requests (w_self w') = evict (clock w) (w_self w) ++ recorded w
  ∧ posts w'
    = (posts w
       + (if fst (snd (_check_rate_limit (clock w) (w_self w)))
             && api_available (w_self w) then 1 else 0))%nat
  ∧ same_scheduler (w_self w) (w_self w')
  ∧ net w' = net w.
Proof.
  cbn zeta. unfold fetch_player_data_body, recorded.
  destruct (_check_rate_limit (clock w) (w_self w)) as [self [permitted wait]] eqn:Hc.
  assert (self = set_api_requests (evict (clock w) (w_self w)) (w_self w)) as ->.
  { unfold _check_rate_limit in Hc. cbn zeta in Hc.
    by destruct (_ <? _)%Z; inversion Hc. }
  cbn [fst snd]. destruct permitted; cbn [negb andb].
  2:{ cbn. rewrite app_nil_r, Nat.add_0_r. repeat split; done. }
  replace (api_available (w_self (set_w_self _ w)))
    with (api_available (w_self w)) by done.
  destruct (api_available (w_self w)); cbn [negb].
  2:{ cbn. rewrite app_nil_r, Nat.add_0_r. repeat split; done. }
  replace (net (set_w_self _ w) (posts (set_w_self _ w)))
    with (net w (posts w)) by done.
  destruct (net w (posts w)) as [e|latency http_status body].
  - unfold fetch_except. destruct (is_Exception e); cbn;
      rewrite app_nil_r, Nat.add_1_r; repeat split; done.
  - destruct (http_status =? 200)%Z; [destruct body as [j|e]|].
    + cbn. rewrite Nat.add_1_r. repeat split; done.
    + unfold fetch_except. destruct (is_Exception e); cbn;
        rewrite Nat.add_1_r; repeat split; done.
    + destruct (http_status =? 429)%Z; cbn; rewrite Nat.add_1_r;
        repeat split; done.
Qed.


Lemma fetch_window (fid : string) (use_proxy : option string) (w : World) :
  let w' := snd (fetch_player_data fid use_proxy w) in
  api_requests (w_self w') = evict (clock w) (w_self w) ++ recorded w
  ∧ posts w'
    = (posts w
       + (if fst (snd (_check_rate_limit (clock w) (w_self w)))
             && api_available (w_self w) then 1 else 0))%nat
  ∧ same_scheduler (w_self w) (w_self w')
  ∧ net w' = net w.
Proof.
  cbn zeta. pose proof (fetch_body_window fid use_proxy w) as H.
  cbn zeta in H. unfold fetch_player_data.
  by destruct (fetch_player_data_body fid use_proxy w) as [[r|e] w1].
Qed.

(** A request refused by the local check is answered without touching the
    network. *)
Lemma fetch_refused (fid : string) (use_proxy : option string) (w : World) :
  fst (snd (_check_rate_limit (clock w) (w_self w))) = false →
  fst (fetch_player_data fid use_proxy w)
  = Return {| status := RateLimited; data := None;
              wait_time := Some (snd (snd (_check_rate_limit (clock w) (w_self w))));
              error_message :=
                Some (RateLimitReached
                        (snd (snd (_check_rate_limit (clock w) (w_self w)))));
              err_code := None |}.
Proof.
  intros H. unfold fetch_player_data, fetch_player_data_body.
  destruct (_check_rate_limit (clock w) (w_self w)) as [self [permitted wait]].
  cbn in H. subst permitted. done.
Qed.

(** C2 (amended).  When the rate-limit check does not permit the request,
    [fetch_player_data] returns status [RateLimited] with the computed
    wait, sends nothing and appends no timestamp: the window it leaves is
    the window with the expired timestamps evicted (the same window as
    before when that held at most [rate_limit] timestamps).  In every
    case the window after the call is the evicted window followed by at
    most one new timestamp, and there is one exactly when the request was
    let through and the post came back with a response. *)
Theorem fetch_player_data_records (fid : string) (use_proxy : option string)
    (w : World) :
  let permitted := fst (snd (_check_rate_limit (clock w) (w_self w))) in
  let wait := snd (snd (_check_rate_limit (clock w) (w_self w))) in
  let res := fst (fetch_player_data fid use_proxy w) in
  let w' := snd (fetch_player_data fid use_proxy w) in
  (permitted = false →
     res = Return {| status := RateLimited; data := None;
                     wait_time := Some wait;
                     error_message := Some (RateLimitReached wait);
                     err_code := None |}
     ∧ posts w' = posts w
     ∧ api_requests (w_self w') = evict (clock w) (w_self w)
     ∧ ((Z.of_nat (length (api_requests (w_self w))) ≤ rate_limit (w_self w))%Z →
        api_requests (w_self w') = api_requests (w_self w)))
  ∧ api_requests (w_self w')
    = evict (clock w) (w_self w)
      ++ (if permitted && api_available (w_self w) then
            match net w (posts w) with
            | Response latency _ _ => [(clock w + latency)%Q]
            | PostRaises _ => []
            end
          else [])
  ∧ (length (api_requests (w_self w'))
     ≤ S (length (evict (clock w) (w_self w))))%nat.
Proof.
  cbn zeta. destruct (fetch_window fid use_proxy w) as (Hw & Hp & _ & _).
  cbn zeta in Hw, Hp. split; [|split].
  - intros Hperm. split; [by apply fetch_refused|].
    rewrite Hw, Hp. unfold recorded. rewrite Hperm. cbn [andb].
    rewrite app_nil_r, Nat.add_0_r. split; [done|]. split; [done|].
    intros Hlen. unfold evict. apply filter_full_length.
    pose proof (evict_length (clock w) (w_self w)) as Hle.
    assert (rate_limit (w_self w)
            ≤ Z.of_nat (length (evict (clock w) (w_self w))))%Z as Hge.
    { unfold _check_rate_limit in Hperm. cbn zeta in Hperm.
      destruct (_ <? _)%Z eqn:E in Hperm; [done|].
      by apply Z.ltb_ge in E. }
    unfold evict in *. lia.
  - done.
  - rewrite Hw, length_app. unfold recorded.
    destruct (_ && _); [destruct (net w (posts w))|]; cbn; lia.
Qed.

(** C2 as stated fails in [crowded_world]: the request is refused and the
    window loses its expired entry. *)
Lemma fetch_refused_changes_window :
  fst (snd (_check_rate_limit (clock crowded_world) (w_self crowded_world)))
  = false
  ∧ (∃ r, fst (fetch_player_data "46765089" None crowded_world) = Return r
          ∧ status r = RateLimited ∧ wait_time r = Some 50%Q)
  ∧ length (api_requests (w_self crowded_world)) = 31%nat
  ∧ length (api_requests
              (w_self (snd (fetch_player_data "46765089" None crowded_world))))
    = 30%nat
  ∧ api_requests (w_self (snd (fetch_player_data "46765089" None crowded_world)))
    ≠ api_requests (w_self crowded_world).
Proof.
  split; [by vm_compute|]. split.
  - eexists. split; [by vm_compute|]. by vm_compute.
  - split; [by vm_compute|]. split; [by vm_compute|].
    intros H. apply (f_equal length) in H. vm_compute in H. discriminate H.
Qed.

End Fetch.

Section Batch.

(** What one fetch does to the world besides the window. *)
Lemma fetch_effects (fid : string) (use_proxy : option string) (w : World) :
  same_scheduler (w_self w) (w_self (snd (fetch_player_data fid use_proxy w)))
  ∧ net (snd (fetch_player_data fid use_proxy w)) = net w
  ∧ match fst (fetch_player_data fid use_proxy w) with
    | Return r =>
        trace (snd (fetch_player_data fid use_proxy w))
        = trace w ++ [EFetched fid r]
    | Raise e =>
        trace (snd (fetch_player_data fid use_proxy w)) = trace w
        ∧ outcome_caught (net w (posts w)) = false
    end.
Proof.
  destruct (fetch_window fid use_proxy w) as (_ & _ & Hs & Hn).
  cbn zeta in Hs, Hn. split; [done|]. split; [done|].
  unfold fetch_player_data, fetch_player_data_body.
  destruct (_check_rate_limit (clock w) (w_self w)) as [self [permitted wait]].
  destruct permitted; cbn [negb]; [|done].
  destruct (api_available _); cbn [negb]; [|done].
  replace (net (set_w_self self w) (posts (set_w_self self w)))
    with (net w (posts w)) by done.
  destruct (net w (posts w)) as [e|latency http_status body].
  - unfold fetch_except. by destruct e.
  - destruct (http_status =? 200)%Z; [destruct body as [j|e]|].
    + done.
    + unfold fetch_except. by destruct e.
    + by destruct (http_status =? 429)%Z.
Qed.

Lemma set_last_snoc (results : list FetchResult) (r1 r2 : FetchResult) :
  set_last (results ++ [r1]) r2 = results ++ [r2].
Proof.
  unfold set_last. rewrite length_app. cbn.
  replace (pred (length results + 1)) with (length results + 0)%nat by lia.
  by rewrite insert_app_r.
Qed.


Lemma report_spec (cb : option ProgressCallback) (current total : Z)
    (msg : ProgressMsg) (w : World) :
  w_self (snd (report cb current total msg w)) = w_self w
  ∧ net (snd (report cb current total msg w)) = net w
  ∧ posts (snd (report cb current total msg w)) = posts w
  ∧ (callback_returns cb → fst (report cb current total msg w) = Return ())
  ∧ (fst (report cb current total msg w) = Return () →
     trace (snd (report cb current total msg w))
     = trace w ++ progress_of (given cb) current total msg).
Proof.
  unfold report, progress_of, given. destruct cb as [f|]; cbn.
  - destruct (f current total msg) eqn:E; cbn.
    + repeat split; try done. intros H. by rewrite H in E.
    + done.
  - rewrite app_nil_r. done.
Qed.

Lemma service_caught_net (w w' : World) :
  net w' = net w → service_caught w → service_caught w'.
Proof. unfold service_caught. by intros ->. Qed.

Lemma batch_iteration_spec (cb : option ProgressCallback) (total i : Z)
    (fid : string) (acc : list FetchResult) (w : World) :
  same_scheduler (w_self w) (w_self (snd (batch_iteration cb total i fid acc w)))
  ∧ net (snd (batch_iteration cb total i fid acc w)) = net w
  ∧ (callback_returns cb → service_caught w →
     ∃ res, fst (batch_iteration cb total i fid acc w) = Return res)
  ∧ (∀ res, fst (batch_iteration cb total i fid acc w) = Return res →
     ∃ r tr, res = acc ++ [r]
             ∧ trace (snd (batch_iteration cb total i fid acc w)) = trace w ++ tr
             ∧ fid_shape (given cb) total (request_delay (w_self w)) i fid r tr).
Proof.
  unfold batch_iteration, mbind, M_bind, mret, M_ret.
  destruct (report_spec cb (i + 1) total (FetchingPlayer (i + 1) total) w)
    as (Hs1 & Hn1 & _ & Hr1 & Ht1).
  destruct (report cb (i + 1) total (FetchingPlayer (i + 1) total) w)
    as [[[]|e1] w1]; cbn [fst snd] in *.
  2:{ rewrite Hs1. split; [apply same_scheduler_refl|]. split; [done|].
      split; [|done]. intros Hcb _. by specialize (Hr1 Hcb). }
  specialize (Ht1 eq_refl).
  destruct (fetch_effects fid None w1) as (Hs2 & Hn2 & Ht2).
  destruct (fetch_player_data fid None w1) as [[r1|e2] w2]; cbn [fst snd] in *.
  2:{ rewrite Hs1 in Hs2. split; [done|]. split; [congruence|].
      split; [|done]. intros _ Hnet. destruct Ht2 as [_ Ht2].
      rewrite Hn1, (Hnet (posts w1)) in Ht2. done. }
  destruct (is_rate_limited r1) eqn:Hrl.
  - (* rate limited: report, sleep, fetch again *)
    set (wait := default 60%Q (wait_time r1)).
    destruct (report_spec cb (i + 1) total (RateLimitedWaiting wait) w2)
      as (Hs3 & Hn3 & _ & Hr3 & Ht3).
    destruct (report cb (i + 1) total (RateLimitedWaiting wait) w2)
      as [[[]|e3] w3]; cbn [fst snd] in *.
    2:{ split; [rewrite Hs3, <- Hs1; done|]. split; [congruence|].
        split; [|done]. intros Hcb _. by specialize (Hr3 Hcb). }
    specialize (Ht3 eq_refl). unfold sleep.
    set (w4 := emit (ESleep wait) (advance (max0 wait) w3)).
    cbn beta iota.
    destruct (fetch_effects fid None w4) as (Hs5 & Hn5 & Ht5).
    destruct (fetch_player_data fid None w4) as [[r2|e5] w5];
      cbn [fst snd] in *.
    2:{ split; [rewrite <- Hs1; apply (same_scheduler_trans _ _ _ Hs2);
                by rewrite <- Hs3|].
        split; [subst w4; cbn in Hn5; congruence|].
        split; [|done]. intros _ Hnet. destruct Ht5 as [_ Ht5].
        subst w4. cbn in Ht5. rewrite Hn3, Hn2, Hn1 in Ht5.
        by rewrite (Hnet _) in Ht5. }
    assert (same_scheduler (w_self w) (w_self w5)) as Hs.
    { rewrite <- Hs1. apply (same_scheduler_trans _ _ _ Hs2).
      by rewrite <- Hs3. }
    assert (net w5 = net w) as Hn by (subst w4; cbn in Hn5; congruence).
    assert (trace w5
            = trace w
              ++ progress_of (given cb) (i + 1) total
                   (FetchingPlayer (i + 1) total)
              ++ [EFetched fid r1]
              ++ progress_of (given cb) (i + 1) total (RateLimitedWaiting wait)
              ++ [ESleep wait] ++ [EFetched fid r2]) as Ht.
    { rewrite Ht5. subst w4. cbn. rewrite Ht3, Ht2, Ht1.
      by rewrite <- !app_assoc. }
    assert (request_delay (w_self w5) = request_delay (w_self w)) as Hd
      by apply Hs.
    rewrite set_last_snoc.
    destruct (i <? total - 1)%Z eqn:Hi; cbn [fst snd].
    + split; [done|]. split; [done|]. split; [by eexists|].
      intros res [= <-]. eexists _, _. split; [done|]. split.
      * cbn. rewrite Ht, Hd. rewrite <- !app_assoc. reflexivity.
      * pose proof (shape_retry (given cb) total (request_delay (w_self w))
                      i fid r1 r2 Hrl) as Hsh.
        unfold pause_of in Hsh. rewrite Hi in Hsh. exact Hsh.
    + split; [done|]. split; [done|]. split; [by eexists|].
      intros res [= <-]. eexists _, _. split; [done|]. split.
      * rewrite Ht. rewrite <- (app_nil_r [EFetched fid r2]). reflexivity.
      * pose proof (shape_retry (given cb) total (request_delay (w_self w))
                      i fid r1 r2 Hrl) as Hsh.
        unfold pause_of in Hsh. rewrite Hi in Hsh. exact Hsh.
  - (* not rate limited *)
    assert (same_scheduler (w_self w) (w_self w2)) as Hs
      by (by rewrite <- Hs1).
    assert (net w2 = net w) as Hn by congruence.
    assert (request_delay (w_self w2) = request_delay (w_self w)) as Hd
      by apply Hs.
    destruct (i <? total - 1)%Z eqn:Hi; cbn [fst snd].
    + split; [done|]. split; [done|]. split; [by eexists|].
      intros res [= <-]. eexists _, _. split; [done|]. split.
      * cbn. rewrite Ht2, Ht1, Hd. rewrite <- !app_assoc. reflexivity.
      * pose proof (shape_once (given cb) total (request_delay (w_self w))
                      i fid r1 Hrl) as Hsh.
        unfold pause_of in Hsh. rewrite Hi in Hsh. exact Hsh.
    + split; [done|]. split; [done|]. split; [by eexists|].
      intros res [= <-]. eexists _, _. split; [done|]. split.
      * rewrite Ht2, Ht1. rewrite <- !app_assoc.
        rewrite <- (app_nil_r [EFetched fid r1]). reflexivity.
      * pose proof (shape_once (given cb) total (request_delay (w_self w))
                      i fid r1 Hrl) as Hsh.
        unfold pause_of in Hsh. rewrite Hi in Hsh. exact Hsh.
Qed.


Lemma batch_loop_spec (cb : option ProgressCallback) (total : Z)
    (fids : list string) :
  ∀ (i : Z) (acc : list FetchResult) (w : World),
    same_scheduler (w_self w) (w_self (snd (batch_loop cb total i fids acc w)))
    ∧ net (snd (batch_loop cb total i fids acc w)) = net w
    ∧ (callback_returns cb → service_caught w →
       ∃ res, fst (batch_loop cb total i fids acc w) = Return res)
    ∧ (∀ res, fst (batch_loop cb total i fids acc w) = Return res →
       ∃ rs tr, res = acc ++ rs
                ∧ trace (snd (batch_loop cb total i fids acc w)) = trace w ++ tr
                ∧ batch_shape (given cb) total (request_delay (w_self w))
                    i fids rs tr).
Proof.
  induction fids as [|fid fids IH]; intros i acc w.
  - cbn. split; [apply same_scheduler_refl|]. split; [done|].
    split; [by eexists|]. intros res [= <-]. exists [], [].
    rewrite !app_nil_r. split; [done|]. split; [done|]. constructor.
  - cbn [batch_loop]. unfold mbind, M_bind.
    destruct (batch_iteration_spec cb total i fid acc w) as (Hs & Hn & Hr & Ht).
    destruct (batch_iteration cb total i fid acc w) as [[acc1|e] w1];
      cbn [fst snd] in *.
    2:{ split; [done|]. split; [done|]. split; [|done].
        intros Hcb Hnet. destruct (Hr Hcb Hnet) as [? [=]]. }
    destruct (Ht acc1 eq_refl) as (r & tr1 & -> & Htr1 & Hsh1).
    destruct (IH (i + 1)%Z (acc ++ [r]) w1) as (Hs' & Hn' & Hr' & Ht').
    split; [by eapply same_scheduler_trans|]. split; [congruence|]. split.
    + intros Hcb Hnet. apply Hr'; [done|]. by eapply service_caught_net.
    + intros res Hres. destruct (Ht' res Hres) as (rs & tr2 & -> & Htr2 & Hsh2).
      exists (r :: rs), (tr1 ++ tr2). split; [by rewrite <- app_assoc|].
      split; [by rewrite Htr2, Htr1, <- app_assoc|].
      apply shape_cons; [done|].
      replace (request_delay (w_self w)) with (request_delay (w_self w1));
        [done|apply Hs].
Qed.

Lemma batch_shape_length (b : bool) (total : Z) (delay : Q) (i : Z)
    (fids : list string) (rs : list FetchResult) (tr : list Effect) :
  batch_shape b total delay i fids rs tr → length rs = length fids.
Proof. induction 1; cbn; congruence. Qed.

(** C8.  [_fetch_batch_internal] leaves the operation queue alone and,
    when nothing it awaits raises past [except Exception], returns a list;
    the list it returns has one result per fid, in the order of the fids,
    and its effects are those of [batch_shape]: a fetch that came back
    rate limited is followed by a sleep of the advisory wait (60 when the
    result has none) and by exactly one more fetch of the same fid, whose
    result takes the place of the first. *)
Theorem fetch_batch_spec (fids : list string)
    (progress_callback : option ProgressCallback) (w : World) :
  let total := Z.of_nat (length fids) in
  let res := fst (_fetch_batch_internal fids progress_callback total w) in
  let w' := snd (_fetch_batch_internal fids progress_callback total w) in
  operation_queue (w_self w') = operation_queue (w_self w)
  ∧ (callback_returns progress_callback → service_caught w →
     ∃ results, res = Return results)
  ∧ (∀ results, res = Return results →
       length results = length fids
       ∧ ∃ tr, trace w' = trace w ++ tr
               ∧ batch_shape (given progress_callback) total
                   (request_delay (w_self w)) 0 fids results tr).
Proof.
  cbn zeta. unfold _fetch_batch_internal.
  destruct (batch_loop_spec progress_callback (Z.of_nat (length fids)) fids
              0%Z [] w) as (Hs & _ & Hr & Ht).
  split; [apply Hs|]. split; [done|].
  intros results Hres. destruct (Ht results Hres) as (rs & tr & -> & Htr & Hsh).
  cbn [app]. split; [by eapply batch_shape_length|]. by exists tr.
Qed.

(** A worked batch in [busy_world]: both fids are refused at first and
    succeed at the retry, after sleeping the advised 30 and 58 seconds. *)
Example fetch_batch_busy :
  let out := _fetch_batch_internal ["a"; "b"] None 2 busy_world in
  (∃ ra rb, fst out = Return [ra; rb]
            ∧ status ra = Success ∧ status rb = Success)
  ∧ map (λ e, match e with
              | EFetched fid r => inl (fid, status r)
              | ESleep d => inr (Some (Qred d))
              | EProgress _ _ _ => inr None
              end) (trace (snd out))
    = [inl ("a", RateLimited); inr (Some 30%Q); inl ("a", Success);
       inr (Some 2%Q);
       inl ("b", RateLimited); inr (Some 58%Q); inl ("b", Success)]
  ∧ posts (snd out) = 2%nat.
Proof.
  cbn zeta. split.
  - eexists _, _. split; [by vm_compute|]. by vm_compute.
  - by vm_compute.
Qed.

End Batch.

Section ConsumerSteps.

Lemma passive_held (t : Task) : passive t = true → held_by t = [].
Proof. by destruct t. Qed.

Lemma passive_ok (el : EventLoop) (t : Task) : passive t = true → task_ok el t.
Proof. by destruct t. Qed.

Lemma outer_except_objects (e : PyExc) (el : EventLoop) :
  same_objects el (fst (outer_except e el))
  ∧ passive (snd (outer_except e el)) = true.
Proof. unfold outer_except. by destruct e. Qed.

Lemma inner_except_objects (operation : Operation) (e : PyExc) (el : EventLoop) :
  same_objects el (fst (inner_except operation e el))
  ∧ passive (snd (inner_except operation e el)) = true.
Proof.
  unfold inner_except.
  destruct (is_Exception e); [destruct (description operation)|].
  - by destruct (interaction operation).
  - apply (outer_except_objects (KeyError "description") (finally_clause el)).
  - apply (outer_except_objects e (finally_clause el)).
Qed.

(** [invoke] either reaches the callback, or fails to find it and leaves
    the [async with] block. *)
Lemma invoke_cases (operation : Operation) (held : option nat) (el : EventLoop) :
  (is_Some (callback operation)
   ∧ invoke operation held el = (el, TCallback operation held))
  ∨ (callback operation = None
     ∧ same_objects (release held el) (fst (invoke operation held el))
     ∧ passive (snd (invoke operation held el)) = true).
Proof.
  unfold invoke. destruct (callback operation) as [c|].
  - left. split; [by eexists|done].
  - right. split; [done|]. apply inner_except_objects.
Qed.

Lemma get_alliance_lock_spec (k : string) (el : EventLoop) :
  registry_ok el →
  let el' := fst (get_alliance_lock k el) in
  let l := snd (get_alliance_lock k el) in
  alliance_locks (el_self el') !! k = Some l
  ∧ registry_ok el'
  ∧ (∀ k' l', alliance_locks (el_self el) !! k' = Some l' →
              alliance_locks (el_self el') !! k' = Some l')
  ∧ tasks el' = tasks el
  ∧ queue_processor_task (el_self el') = queue_processor_task (el_self el)
  ∧ operation_queue (el_self el') = operation_queue (el_self el)
  ∧ (∀ l', locks el' !! l' = Some true ↔ locks el !! l' = Some true).
Proof.
  intros Hreg. unfold get_alliance_lock.
  destruct (alliance_locks (el_self el) !! k) as [l|] eqn:Hk; cbn.
  - repeat split; try done.
  - split; [by rewrite lookup_insert_eq|]. split; [|split].
    + intros k' l'. cbn. rewrite lookup_insert. case_decide as Hkk.
      * intros [= <-]. rewrite length_app. cbn. lia.
      * intros Hl'. apply Hreg in Hl'. rewrite length_app. cbn. lia.
    + intros k' l' Hl'. rewrite lookup_insert_ne; [done|]. congruence.
    + repeat split; try done.
      * intros Hl'. destruct (decide (l' < length (locks el))%nat) as [Hlt|Hge].
        -- by rewrite lookup_app_l in Hl'.
        -- rewrite lookup_app_r in Hl' by lia.
           destruct (l' - length (locks el))%nat; cbn in Hl'; done.
      * intros Hl'. rewrite lookup_app_l; [done|]. by eapply lookup_lt_Some.
Qed.


Lemma sound_after_passive (el0 el el' : EventLoop) (t' : Task) :
  registry_ok el →
  (∀ l, locks el !! l ≠ Some true) →
  tasks el = tasks el0 →
  queue_processor_task (el_self el) = queue_processor_task (el_self el0) →
  (∀ k l, alliance_locks (el_self el0) !! k = Some l →
          alliance_locks (el_self el) !! k = Some l) →
  same_objects el el' →
  passive t' = true →
  sound_after el0 el' t'.
Proof.
  intros Hreg Hfree Ht Hq Hmono (Hl & Hts & Ha & Hh & _) Hp.
  unfold sound_after. split; [congruence|]. split; [congruence|].
  split; [|split; [|split]].
  - intros k l. rewrite Ha, Hl. apply Hreg.
  - intros k l Hk. rewrite Ha. by apply Hmono.
  - intros l. rewrite (passive_held _ Hp), Hl. split; [|done].
    intros H. by apply Hfree in H.
  - by apply passive_ok.
Qed.

Lemma begin_operation_sound (operation : Operation) (el : EventLoop) :
  registry_ok el →
  (∀ l, locks el !! l ≠ Some true) →
  sound_after el (fst (begin_operation operation el))
    (snd (begin_operation operation el)).
Proof.
  intros Hreg Hfree. unfold begin_operation.
  set (el1 := set_el_self _ el).
  assert (same_objects el el1) as H1 by done.
  destruct (description operation) as [d|] eqn:Hd.
  2:{ destruct (outer_except_objects (KeyError "description") el1) as [Ho Hp].
      by eapply (sound_after_passive el el). }
  set (el2 := el_log _ el1).
  assert (registry_ok el2) as Hreg2 by done.
  assert (∀ l, locks el2 !! l ≠ Some true) as Hfree2 by done.
  assert (∀ held, held = None →
            group_key operation = None →
            sound_after el (fst (invoke operation held el2))
              (snd (invoke operation held el2))) as Hinvoke.
  { intros held -> Hg.
    destruct (invoke_cases operation None el2) as [[Hc ->]|(Hc & Ho & Hp)].
    - cbn [fst snd]. unfold sound_after. repeat split; try done.
      + intros H. by apply Hfree2 in H.
      + cbn. by rewrite Hg.
    - by eapply (sound_after_passive el el2). }
  unfold group_key in Hinvoke.
  destruct (alliance_id operation) as [k|] eqn:Hk; [|by apply Hinvoke].
  destruct (truthy k) eqn:Htk; [|by apply Hinvoke].
  destruct (get_alliance_lock_spec (str_key k) el2 Hreg2)
    as (Hl & Hr & Hm & Ht & Hq & _ & Hlk).
  destruct (get_alliance_lock (str_key k) el2) as [el3 l]; cbn [fst snd] in *.
  unfold sound_after. split; [done|]. split; [done|]. split; [done|].
  split; [by intros ? ? ?; apply Hm|]. split.
  - intros l'. rewrite Hlk. cbn. split; [|done]. intros H. by apply Hfree2 in H.
  - cbn. split; [by eexists|]. exists (str_key k). split; [|done].
    unfold group_key. by rewrite Hk, Htk.
Qed.


Lemma release_free (operation : Operation) (held : option nat) (el : EventLoop) :
  (∀ l, locks el !! l = Some true ↔ In l (held_by (TCallback operation held))) →
  ∀ l, locks (release held el) !! l ≠ Some true.
Proof.
  intros Hlk l. destruct held as [h|]; cbn.
  - rewrite list_lookup_insert. case_decide as Hh; [done|].
    intros Hl. apply Hlk in Hl. cbn in Hl. destruct Hl as [->|[]].
    apply Hh. split; [done|]. apply lookup_lt_is_Some. exists true.
    apply Hlk. cbn. by left.
  - intros Hl. by apply Hlk in Hl.
Qed.

Lemma release_objects (held : option nat) (el : EventLoop) :
  tasks (release held el) = tasks el
  ∧ el_self (release held el) = el_self el
  ∧ length (locks (release held el)) = length (locks el).
Proof. destruct held; cbn; [|done]. by rewrite length_insert. Qed.

Lemma registry_ok_locks (el el' : EventLoop) :
  el_self el' = el_self el →
  length (locks el') = length (locks el) →
  registry_ok el → registry_ok el'.
Proof. unfold registry_ok. intros -> ->. done. Qed.

Lemma resume_task_sound (t : Task) (r : Awaited) (el el' : EventLoop) (t' : Task) :
  registry_ok el →
  task_ok el t →
  (∀ l, locks el !! l = Some true ↔ In l (held_by t)) →
  _process_operation_queue t r el = Some (el', t') →
  Task_done t = false ∧ sound_after el el' t'.
Proof.
  intros Hreg Hok Hlk Hres.
  assert (held_by t = [] → ∀ l, locks el !! l ≠ Some true) as Hfree.
  { intros Hp l Hl. apply Hlk in Hl. by rewrite Hp in Hl. }
  destruct t as [| |operation l|operation held|operation|d| |e0];
    cbn in Hres; try done; (split; [done|]).
  - (* TCreated *)
    destruct r; injection Hres as <- <-.
    + by eapply (sound_after_passive el el); try apply Hfree.
    + by eapply (sound_after_passive el el); try apply Hfree.
  - (* TGet *)
    destruct r as [|e].
    + destruct (operation_queue (el_self el)) as [|operation rest]; [done|].
      set (el1 := set_el_self _ el) in Hres.
      pose proof (begin_operation_sound operation el1) as Hb.
      destruct (begin_operation operation el1) as [el2 t2].
      injection Hres as <- <-. apply Hb; [done|]. by apply Hfree.
    + destruct (outer_except_objects e el) as [Ho Hp].
      destruct (outer_except e el) as [el2 t2]. injection Hres as <- <-.
      by eapply (sound_after_passive el el); try apply Hfree.
  - (* TAcquire *)
    destruct Hok as (Hd & k & Hg & Hk). destruct r as [|e].
    + destruct (locks el !! l) as [[]|] eqn:Hl; try done.
      set (el1 := set_locks _ el) in Hres.
      destruct (invoke_cases operation (Some l) el1)
        as [[Hc Hi]|(Hc & Ho & Hp)].
      * rewrite Hi in Hres. injection Hres as <- <-.
        unfold sound_after. split; [done|]. split; [done|]. split.
        { eapply (registry_ok_locks el); [done| |done].
          subst el1. cbn. by rewrite length_insert. }
        split; [done|]. split.
        { intros l'. subst el1. cbn. rewrite list_lookup_insert.
          case_decide as Hll.
          - destruct Hll as [-> _]. split; [by left|done].
          - split.
            + intros Hl'. by apply (Hfree eq_refl) in Hl'.
            + intros [->|[]]. exfalso. apply Hll. split; [done|].
              by eapply lookup_lt_Some. }
        cbn. split; [done|]. split; [done|]. rewrite Hg. by exists l.
      * destruct (invoke operation (Some l) el1) as [el2 t2].
        injection Hres as <- <-. cbn [fst snd] in *.
        eapply (sound_after_passive el (release (Some l) el1)); try done.
        -- eapply (registry_ok_locks el); [done| |done].
           subst el1. cbn. by rewrite !length_insert.
        -- intros l'. subst el1. cbn. rewrite list_insert_insert_eq.
           rewrite list_lookup_insert. case_decide; [done|].
           by apply Hfree.
    + destruct (inner_except_objects operation e el) as [Ho Hp].
      destruct (inner_except operation e el) as [el2 t2].
      injection Hres as <- <-.
      by eapply (sound_after_passive el el); try apply Hfree.
  - (* TCallback *)
    pose proof (release_free operation held el Hlk) as Hrel.
    destruct (release_objects held el) as (Hrt & Hrs & Hrl).
    assert (registry_ok (release held el)) as Hreg1
      by (by eapply (registry_ok_locks el)).
    destruct r as [|e].
    + destruct (description operation) as [d|].
      * injection Hres as <- <-.
        eapply (sound_after_passive el (release held el)); try done.
        -- by rewrite Hrs.
        -- by rewrite Hrs.
      * destruct (inner_except_objects operation (KeyError "description")
                    (release held el)) as [Ho Hp].
        destruct (inner_except _ _ _) as [el2 t2]. injection Hres as <- <-.
        eapply (sound_after_passive el (release held el)); try done.
        -- by rewrite Hrs.
        -- by rewrite Hrs.
    + destruct (inner_except_objects operation e (release held el)) as [Ho Hp].
      destruct (inner_except _ _ _) as [el2 t2]. injection Hres as <- <-.
      eapply (sound_after_passive el (release held el)); try done.
      * by rewrite Hrs.
      * by rewrite Hrs.
  - (* TSend *)
    assert (el' = finally_clause el ∧ t' = TGet) as [-> ->]
      by (by destruct r; injection Hres as <- <-).
    by eapply (sound_after_passive el el); try apply Hfree.
  - (* TSleep *)
    destruct r; injection Hres as <- <-;
      by eapply (sound_after_passive el el); try apply Hfree.
Qed.


Lemma done_passive (t : Task) : Task_done t = true → passive t = true.
Proof. by destruct t. Qed.

Lemma held_live (t : Task) (l : nat) : In l (held_by t) → Task_done t = false.
Proof. by destruct t. Qed.

(** In a consistent state the locked locks are those of the live task. *)
Lemma consistent_locks (el : EventLoop) (tid : nat) (t : Task) :
  consistent el →
  tasks el !! tid = Some t →
  Task_done t = false →
  ∀ l, locks el !! l = Some true ↔ In l (held_by t).
Proof.
  intros (_ & Hone & _ & Hlk & _) Ht Hlive l. rewrite Hlk. split.
  - intros (i & t0 & Hi & Hin).
    pose proof (Hone _ _ Hi (held_live _ _ Hin)) as H1.
    pose proof (Hone _ _ Ht Hlive) as H2.
    assert (i = tid) as -> by congruence. congruence.
  - intros Hin. by exists tid, t.
Qed.

Lemma start_queue_processor_consistent (el : EventLoop) :
  consistent el → consistent (start_queue_processor el).
Proof.
  intros (Hh & Hone & Hreg & Hlk & Hok). unfold start_queue_processor.
  destruct (no_live_processor el) eqn:Hno; [|done].
  assert (∀ i t, tasks el !! i = Some t → Task_done t = true) as Hdone.
  { intros i t Hi. destruct (Task_done t) eqn:Hd; [done|].
    pose proof (Hone _ _ Hi Hd) as Hq. unfold no_live_processor in Hno.
    rewrite Hq, Hi in Hno. congruence. }
  unfold consistent. cbn. split; [|split; [|split; [|split]]].
  - intros tid [= <-]. rewrite length_app. cbn. lia.
  - intros i t Hi Hlive. f_equal.
    destruct (decide (i < length (tasks el))%nat) as [Hlt|Hge].
    + rewrite lookup_app_l in Hi by done. apply Hdone in Hi. congruence.
    + apply lookup_lt_Some in Hi as Hi'. rewrite length_app in Hi'. cbn in Hi'.
      lia.
  - done.
  - intros l. rewrite Hlk. split; intros (i & t & Hi & Hin).
    + exists i, t. split; [|done]. rewrite lookup_app_l; [done|].
      by eapply lookup_lt_Some.
    + destruct (decide (i < length (tasks el))%nat) as [Hlt|Hge].
      * rewrite lookup_app_l in Hi by done. by exists i, t.
      * rewrite lookup_app_r in Hi by lia.
        destruct (i - length (tasks el))%nat; cbn in Hi; [|done].
        injection Hi as <-. done.
  - intros i t Hi.
    destruct (decide (i < length (tasks el))%nat) as [Hlt|Hge].
    + rewrite lookup_app_l in Hi by done.
      apply passive_ok, done_passive. by eapply Hdone.
    + rewrite lookup_app_r in Hi by lia.
      destruct (i - length (tasks el))%nat; cbn in Hi; [|done].
      injection Hi as <-. done.
Qed.

Lemma queue_operation_consistent (operation_info : Operation) (el : EventLoop) :
  consistent el → consistent (fst (queue_operation operation_info el)).
Proof.
  intros Hc. unfold queue_operation.
  destruct (description (set_was_queued _ operation_info)); cbn [fst].
  - by apply start_queue_processor_consistent.
  - done.
Qed.

Lemma resume_consistent (tid : nat) (t : Task) (r : Awaited)
    (el el1 : EventLoop) (t1 : Task) :
  consistent el →
  tasks el !! tid = Some t →
  _process_operation_queue t r el = Some (el1, t1) →
  consistent (set_tasks (<[tid := t1]> (tasks el1)) el1).
Proof.
  intros Hc Ht Hres. pose proof Hc as (Hh & Hone & Hreg & Hlk & Hok).
  assert (Task_done t = false) as Hlive by (by destruct t).
  destruct (resume_task_sound t r el el1 t1 Hreg (Hok _ _ Ht)
              (consistent_locks el tid t Hc Ht Hlive) Hres)
    as (_ & Hts & Hq & Hreg1 & _ & Hlk1 & Hok1).
  pose proof (Hone _ _ Ht Hlive) as Hcur.
  assert (tid < length (tasks el))%nat as Hlt by (by eapply lookup_lt_Some).
  assert (∀ i t0, i ≠ tid → tasks el !! i = Some t0 → Task_done t0 = true)
    as Hothers.
  { intros i t0 Hne Hi. destruct (Task_done t0) eqn:Hd; [done|].
    pose proof (Hone _ _ Hi Hd). congruence. }
  unfold consistent. cbn. rewrite Hts, Hq.
  split; [|split; [|split; [|split]]].
  - intros tid' Htid'. rewrite length_insert. by apply Hh.
  - intros i t0 Hi Hd. destruct (decide (i = tid)) as [->|Hne]; [done|].
    rewrite list_lookup_insert_ne in Hi by done.
    pose proof (Hothers _ _ Hne Hi). congruence.
  - done.
  - intros l. rewrite Hlk1. split.
    + intros Hin. exists tid, t1. split; [|done].
      by apply list_lookup_insert_eq.
    + intros (i & t0 & Hi & Hin). destruct (decide (i = tid)) as [->|Hne].
      * rewrite list_lookup_insert_eq in Hi by done. congruence.
      * rewrite list_lookup_insert_ne in Hi by done.
        pose proof (Hothers _ _ Hne Hi) as Hd.
        pose proof (held_live _ _ Hin). congruence.
  - intros i t0 Hi. destruct (decide (i = tid)) as [->|Hne].
    + rewrite list_lookup_insert_eq in Hi by done. by injection Hi as <-.
    + rewrite list_lookup_insert_ne in Hi by done.
      apply passive_ok, done_passive. by eapply Hothers.
Qed.

Lemma step_consistent (ev : Event) (el el' : EventLoop) :
  consistent el → step ev el = Some el' → consistent el'.
Proof.
  intros Hc Hstep. destruct ev as [operation_info|tid r]; cbn in Hstep.
  - injection Hstep as <-. by apply queue_operation_consistent.
  - destruct (tasks el !! tid) as [t|] eqn:Ht; [|done].
    destruct (_process_operation_queue t r el) as [[el1 t1]|] eqn:Hres; [|done].
    injection Hstep as <-. by eapply resume_consistent.
Qed.

Lemma boot_consistent : consistent boot.
Proof.
  unfold consistent, registry_ok, boot. cbn.
  split; [done|]. split; [done|]. split; [done|]. split; [|done].
  intros l. split; [done|]. by intros (i & t & Hi & _).
Qed.

Lemma run_consistent (evs : list Event) :
  ∀ el el', consistent el → run evs el = Some el' → consistent el'.
Proof.
  induction evs as [|ev evs IH]; intros el el' Hc Hrun; cbn in Hrun.
  - by injection Hrun as <-.
  - destruct (step ev el) as [el1|] eqn:Hstep; [|done].
    eapply IH; [|done]. by eapply step_consistent.
Qed.

Lemma reachable_consistent (el : EventLoop) : reachable el → consistent el.
Proof. intros [evs Hrun]. eapply run_consistent; [apply boot_consistent|done]. Qed.

End ConsumerSteps.

Section Submission.

Lemma consistent_frame (el el' : EventLoop) :
  locks el' = locks el →
  tasks el' = tasks el →
  alliance_locks (el_self el') = alliance_locks (el_self el) →
  queue_processor_task (el_self el') = queue_processor_task (el_self el) →
  consistent el → consistent el'.
Proof.
  intros Hl Ht Ha Hq (Hh & Hone & Hreg & Hlk & Hok).
  unfold consistent, registry_ok. rewrite Hl, Ht, Ha, Hq.
  split; [done|]. split; [done|]. split; [done|]. split; [done|].
  intros i t Hi. specialize (Hok i t Hi). destruct t; try done; cbn in *.
  - by rewrite Ha.
  - by rewrite Ha.
Qed.

Lemma start_queue_processor_live (el : EventLoop) :
  consistent el →
  ∃ tid t, queue_processor_task (el_self (start_queue_processor el)) = Some tid
           ∧ tasks (start_queue_processor el) !! tid = Some t
           ∧ Task_done t = false.
Proof.
  intros (Hh & _). unfold start_queue_processor.
  destruct (no_live_processor el) eqn:Hno.
  - exists (length (tasks el)), TCreated. cbn. split; [done|].
    split; [|done]. rewrite lookup_app_r by done.
    by rewrite Nat.sub_diag.
  - unfold no_live_processor in Hno.
    destruct (queue_processor_task (el_self el)) as [tid|] eqn:Hq; [|done].
    destruct (tasks el !! tid) as [t|] eqn:Ht.
    + by exists tid, t.
    + pose proof (Hh tid eq_refl) as Hlt. apply lookup_ge_None in Ht. lia.
Qed.

Lemma start_queue_processor_idempotent (el : EventLoop) :
  start_queue_processor (start_queue_processor el) = start_queue_processor el.
Proof.
  unfold start_queue_processor at 2 3.
  destruct (no_live_processor el) eqn:Hno.
  - unfold start_queue_processor, no_live_processor. cbn.
    rewrite lookup_app_r by done. by rewrite Nat.sub_diag.
  - unfold start_queue_processor. by rewrite Hno.
Qed.

Lemma queue_operation_described (operation_info : Operation) (d : string)
    (el : EventLoop) :
  description operation_info = Some d →
  let n := length (operation_queue (el_self el)) in
  let queued := set_was_queued (0 <? n) operation_info in
  queue_operation operation_info el
  = (start_queue_processor
       (el_log ("Operation queued: " +:+ d +:+ " (Position: "
                +:+ pretty (Z.of_nat (n + 1)) +:+ ")")
          (set_el_self
             (set_operation_queue (operation_queue (el_self el) ++ [queued])
                (el_self el)) el)),
     Return (Z.of_nat (n + 1))).
Proof.
  intros Hd. cbn zeta. unfold queue_operation. cbn. rewrite Hd.
  rewrite length_app. cbn. done.
Qed.

Lemma start_queue_processor_queue (el : EventLoop) :
  operation_queue (el_self (start_queue_processor el))
  = operation_queue (el_self el).
Proof. unfold start_queue_processor. by destruct (no_live_processor el). Qed.

(** C5.  For an operation with a description, submitted in any reachable
    state: [queue_operation] appends the operation, with ['was_queued'] set
    to whether the queue was non-empty before, to the end of the queue;
    afterwards the handler's task is one that has not finished (a task
    that was still alive is kept and no second one is made; starting
    twice is the same as starting once); and the call returns the size of
    the queue right after appending.  Three submissions in a row return
    positions n+1, n+2, n+3 for a queue of n, so 1, 2, 3 on an empty
    queue. *)
Theorem queue_operation_spec (operation_info : Operation) (el : EventLoop) :
  reachable el →
  is_Some (description operation_info) →
  let n := length (operation_queue (el_self el)) in
  let el' := fst (queue_operation operation_info el) in
  operation_queue (el_self el')
  = operation_queue (el_self el) ++ [set_was_queued (0 <? n) operation_info]
  ∧ snd (queue_operation operation_info el)
    = Return (Z.of_nat (length (operation_queue (el_self el'))))
  ∧ snd (queue_operation operation_info el) = Return (Z.of_nat n + 1)%Z
  ∧ (∃ tid t, queue_processor_task (el_self el') = Some tid
              ∧ tasks el' !! tid = Some t ∧ Task_done t = false)
  ∧ (no_live_processor el = false →
     tasks el' = tasks el
     ∧ queue_processor_task (el_self el') = queue_processor_task (el_self el))
  ∧ start_queue_processor (start_queue_processor el) = start_queue_processor el
  ∧ (∀ second third : Operation,
       is_Some (description second) →
       is_Some (description third) →
       let el'' := fst (queue_operation second el') in
       snd (queue_operation second el') = Return (Z.of_nat n + 2)%Z
       ∧ snd (queue_operation third el'') = Return (Z.of_nat n + 3)%Z).
Proof.
  intros Hreach [d Hd]. cbn zeta.
  rewrite (queue_operation_described _ _ el Hd). cbn [fst snd].
  rewrite start_queue_processor_queue.
  set (el1 := el_log _ _).
  assert (operation_queue (el_self el1)
          = operation_queue (el_self el)
            ++ [set_was_queued (0 <? length (operation_queue (el_self el)))
                  operation_info]) as Hq1 by done.
  assert (consistent el1) as Hc1.
  { by apply (consistent_frame el); [..|apply reachable_consistent]. }
  rewrite Hq1, length_app. cbn [length].
  split; [done|]. split; [done|]. split.
  { f_equal. lia. }
  split; [by apply start_queue_processor_live|]. split.
  { intros Hno. unfold start_queue_processor.
    change (no_live_processor el1) with (no_live_processor el).
    by rewrite Hno. }
  split; [apply start_queue_processor_idempotent|].
  intros second third [d2 Hd2] [d3 Hd3].
  rewrite (queue_operation_described _ _ _ Hd2). cbn [fst snd].
  rewrite (queue_operation_described _ _ _ Hd3). cbn [fst snd].
  rewrite !start_queue_processor_queue.
  cbn [el_log set_el_self el_self log_message operation_queue
       set_operation_queue].
  rewrite ?start_queue_processor_queue, Hq1, !length_app. cbn [length].
  split; f_equal; lia.
Qed.

(** The scenario of C5 from the start: positions 1, 2, 3. *)
Example three_submissions :
  let '(el1, p1) := queue_operation first_operation boot in
  let '(el2, p2) := queue_operation second_operation el1 in
  let '(el3, p3) := queue_operation third_operation el2 in
  (p1, p2, p3) = (Return 1%Z, Return 2%Z, Return 3%Z)
  ∧ map was_queued (operation_queue (el_self el3))
    = [Some false; Some true; Some true]
  ∧ tasks el3 = [TCreated].
Proof. by vm_compute. Qed.

Lemma queue_operation_spec_witness :
  reachable boot
  ∧ is_Some (description first_operation)
  ∧ snd (queue_operation first_operation boot) = Return 1%Z.
Proof.
  split; [exists []; reflexivity|]. split; [eexists; reflexivity|].
  destruct (queue_operation_spec first_operation boot)
    as (_ & _ & H & _); [exists []; reflexivity|eexists; reflexivity|].
  exact H.
Defined.

End Submission.

Section Exclusion.

(** If all elements of a list but the one at [n] contribute nothing, the
    contributions of the list are those of that element. *)
Lemma concat_single {A B} (f : A → list B) (xs : list A) :
  ∀ n, (∀ i x, i ≠ n → xs !! i = Some x → f x = []) →
       concat (map f xs) = match xs !! n with
                           | Some x => f x
                           | None => []
                           end.
Proof.
  induction xs as [|a xs IH]; intros n H; [done|].
  destruct n as [|n]; cbn.
  - rewrite (IH (length xs)).
    + rewrite (lookup_ge_None_2 xs (length xs)) by done. by rewrite app_nil_r.
    + intros i x Hne Hi. by apply (H (S i)).
  - rewrite (H 0%nat a) by done. cbn. apply IH.
    intros i x Hne Hi. apply (H (S i)); [lia|done].
Qed.

(** In a consistent state all tasks but at most one have finished. *)
Lemma consistent_others_done (el : EventLoop) :
  consistent el →
  ∃ n, ∀ i t, i ≠ n → tasks el !! i = Some t → Task_done t = true.
Proof.
  intros (_ & Hone & _).
  destruct (queue_processor_task (el_self el)) as [tid|] eqn:Hq.
  - exists tid. intros i t Hne Hi. destruct (Task_done t) eqn:Hd; [done|].
    pose proof (Hone _ _ Hi Hd). congruence.
  - exists 0%nat. intros i t _ Hi. destruct (Task_done t) eqn:Hd; [done|].
    pose proof (Hone _ _ Hi Hd). congruence.
Qed.

Lemma done_held (t : Task) : Task_done t = true → held_by t = [].
Proof. by destruct t. Qed.

Lemma done_executing (t : Task) : Task_done t = true → executing t = [].
Proof. by destruct t. Qed.

Lemma held_by_short (t : Task) : (length (held_by t) ≤ 1)%nat.
Proof. destruct t as [| | |? [?|]| | | |]; cbn; lia. Qed.

Lemma consistent_held (el : EventLoop) :
  consistent el →
  ∃ n, concat (map held_by (tasks el))
       = match tasks el !! n with
         | Some t => held_by t
         | None => []
         end
       ∧ concat (map executing (tasks el))
         = match tasks el !! n with
           | Some t => executing t
           | None => []
           end
       ∧ ∀ i t, i ≠ n → tasks el !! i = Some t → Task_done t = true.
Proof.
  intros Hc. destruct (consistent_others_done el Hc) as [n Hn].
  exists n. split; [|split; [|done]].
  - apply concat_single. intros i x Hne Hi. apply done_held. by eapply Hn.
  - apply concat_single. intros i x Hne Hi. apply done_executing. by eapply Hn.
Qed.

Lemma holders_bound (el : EventLoop) (l : nat) :
  consistent el → (holders l el ≤ 1)%nat.
Proof.
  intros Hc. unfold holders. destruct (consistent_held el Hc) as (n & -> & _).
  destruct (tasks el !! n) as [t|]; [|cbn; lia].
  pose proof (List.filter_length_le (Nat.eqb l) (held_by t)).
  pose proof (held_by_short t). lia.
Qed.

Lemma running_bound (el : EventLoop) :
  consistent el → (length (running el) ≤ 1)%nat.
Proof.
  intros Hc. unfold running. destruct (consistent_held el Hc) as (n & _ & -> & _).
  destruct (tasks el !! n) as [[]|]; cbn; lia.
Qed.

Lemma holders_locked (el : EventLoop) (l : nat) :
  consistent el → locks el !! l = Some true ↔ holders l el = 1%nat.
Proof.
  intros Hc. pose proof Hc as (_ & _ & _ & Hlk & _). rewrite Hlk.
  unfold holders. destruct (consistent_held el Hc) as (n & -> & _ & Hn). split.
  - intros (i & t & Hi & Hin).
    destruct (decide (i = n)) as [->|Hne].
    + rewrite Hi. destruct t as [| | |? [l0|]| | | |]; try done.
      cbn in Hin. destruct Hin as [->|[]]. cbn. by rewrite Nat.eqb_refl.
    + pose proof (Hn _ _ Hne Hi) as Hd. apply done_held in Hd.
      by rewrite Hd in Hin.
  - intros Hlen. destruct (tasks el !! n) as [t|] eqn:Ht; [|done].
    destruct t as [| | |op [l0|]| | | |]; try done.
    cbn in Hlen. destruct (Nat.eqb_spec l l0) as [->|]; [|done].
    exists n, (TCallback op (Some l0)). split; [done|]. by left.
Qed.

(** The coroutine can always be resumed out of a callback, whatever the
    callback did, and it comes out at a point where it holds no lock. *)
Lemma resume_callback (operation : Operation) (held : option nat) (r : Awaited)
    (el : EventLoop) :
  ∃ el1 t1, _process_operation_queue (TCallback operation held) r el = Some (el1, t1)
            ∧ passive t1 = true.
Proof.
  destruct r as [|e]; cbn [_process_operation_queue].
  - destruct (description operation) as [d|].
    + by eexists _, _.
    + destruct (inner_except_objects operation (KeyError "description")
                  (release held el)) as [_ Hp].
      destruct (inner_except _ _ _) as [el1 t1]. by exists el1, t1.
  - destruct (inner_except_objects operation e (release held el)) as [_ Hp].
    destruct (inner_except _ _ _) as [el1 t1]. by exists el1, t1.
Qed.

Lemma step_registry (ev : Event) (el el' : EventLoop) (k : string) (l : nat) :
  consistent el →
  step ev el = Some el' →
  alliance_locks (el_self el) !! k = Some l →
  alliance_locks (el_self el') !! k = Some l.
Proof.
  intros Hc Hstep Hk. destruct ev as [operation_info|tid r]; cbn in Hstep.
  - injection Hstep as <-. unfold queue_operation.
    destruct (description (set_was_queued _ operation_info)); cbn [fst]; [|done].
    unfold start_queue_processor. by destruct (no_live_processor _).
  - destruct (tasks el !! tid) as [t|] eqn:Ht; [|done].
    destruct (_process_operation_queue t r el) as [[el1 t1]|] eqn:Hres; [|done].
    injection Hstep as <-. pose proof Hc as (_ & _ & Hreg & _ & Hok).
    assert (Task_done t = false) as Hlive by (by destruct t).
    destruct (resume_task_sound t r el el1 t1 Hreg (Hok _ _ Ht)
                (consistent_locks el tid t Hc Ht Hlive) Hres)
      as (_ & _ & _ & _ & Hm & _).
    by apply Hm.
Qed.

(** C4.  In every state the event loop can reach, by whatever
    interleaving of submissions and runs of the consumer:
    - the callbacks of two operations never execute at the same time, be
      they of the same group or not: at most one task is inside a
      callback;
    - every lock object has at most one holder, and is locked exactly
      when it has one;
    - an operation with a group key executes inside the lock registered
      for its key, and a key keeps the lock object it was given;
    - when the callback of a lock holder ends, in whatever way, the lock
      is released in the very run that ends it, so the consumer waits for
      the next operation with every lock free. *)
Theorem group_exclusion (el : EventLoop) :
  reachable el →
  (∀ i j a b held_a held_b,
     tasks el !! i = Some (TCallback a held_a) →
     tasks el !! j = Some (TCallback b held_b) →
     i = j)
  ∧ (length (running el) ≤ 1)%nat
  ∧ (∀ l, (holders l el ≤ 1)%nat
          ∧ (locks el !! l = Some true ↔ holders l el = 1%nat))
  ∧ (∀ i a held k,
       tasks el !! i = Some (TCallback a held) →
       group_key a = Some k →
       ∃ l, held = Some l
            ∧ alliance_locks (el_self el) !! k = Some l
            ∧ locks el !! l = Some true
            ∧ holders l el = 1%nat)
  ∧ (∀ ev el' k l,
       step ev el = Some el' →
       alliance_locks (el_self el) !! k = Some l →
       alliance_locks (el_self el') !! k = Some l)
  ∧ (∀ tid a l r,
       tasks el !! tid = Some (TCallback a (Some l)) →
       ∃ el' t', step (Resume tid r) el = Some el'
                 ∧ tasks el' !! tid = Some t'
                 ∧ passive t' = true
                 ∧ locks el' !! l = Some false
                 ∧ holders l el' = 0%nat
                 ∧ ∀ l', locks el' !! l' ≠ Some true)
  ∧ (∀ tid, tasks el !! tid = Some TGet → ∀ l, locks el !! l ≠ Some true).
Proof.
  intros Hreach. pose proof (reachable_consistent el Hreach) as Hc.
  pose proof Hc as (Hh & Hone & Hreg & Hlk & Hok).
  split; [|split; [|split; [|split; [|split; [|split]]]]].
  - intros i j a b ha hb Hi Hj.
    pose proof (Hone _ _ Hi eq_refl). pose proof (Hone _ _ Hj eq_refl).
    congruence.
  - by apply running_bound.
  - intros l. split; [by apply holders_bound|by apply holders_locked].
  - intros i a held k Hi Hk. pose proof (Hok _ _ Hi) as (_ & _ & Hg).
    rewrite Hk in Hg. destruct Hg as (l & -> & Hl). exists l.
    assert (locks el !! l = Some true) as Hlocked.
    { apply Hlk. exists i, (TCallback a (Some l)). split; [done|]. by left. }
    split; [done|]. split; [done|]. split; [done|].
    by apply holders_locked.
  - intros ev el' k l Hstep Hk. by eapply step_registry.
  - intros tid a l r Ht.
    destruct (resume_callback a (Some l) r el) as (el1 & t1 & Hres & Hp).
    exists (set_tasks (<[tid := t1]> (tasks el1)) el1), t1.
    assert (step (Resume tid r) el
            = Some (set_tasks (<[tid := t1]> (tasks el1)) el1)) as Hstep.
    { cbn [step]. by rewrite Ht, Hres. }
    pose proof (step_consistent _ _ _ Hc Hstep) as Hc'.
    destruct (resume_task_sound _ r el el1 t1 Hreg (Hok _ _ Ht)
                (consistent_locks el tid _ Hc Ht eq_refl) Hres)
      as (_ & Hts & _ & Hreg1 & Hm & Hlk1 & _).
    assert (∀ l', locks el1 !! l' ≠ Some true) as Hfree.
    { intros l' Hl'. apply Hlk1 in Hl'. by rewrite (passive_held _ Hp) in Hl'. }
    split; [done|]. split.
    { cbn. apply list_lookup_insert_eq. rewrite Hts. by eapply lookup_lt_Some. }
    split; [done|].
    assert (locks el1 !! l = Some false) as Hl.
    { pose proof (Hok _ _ Ht) as (_ & _ & Hg).
      destruct (group_key a) as [k|]; [|done].
      destruct Hg as (l0 & [= <-] & Hk). apply Hm, Hreg1 in Hk.
      apply lookup_lt_is_Some in Hk as [[] Hb]; [|done]. by apply Hfree in Hb. }
    split; [done|]. split; [|done].
    pose proof (holders_bound _ l Hc') as Hle.
    pose proof (holders_locked _ l Hc') as Hiff.
    destruct (holders l _) as [|[|]] eqn:E; [done| |lia].
    destruct Hiff as [_ Hiff]. specialize (Hiff eq_refl). by apply Hfree in Hiff.
  - intros tid Ht l Hl. apply (consistent_locks el tid TGet Hc Ht eq_refl) in Hl.
    done.
Qed.

Lemma group_exclusion_witness :
  reachable alliance_running
  ∧ tasks alliance_running
    = [TCallback (set_was_queued false alliance_operation) (Some 0%nat)]
  ∧ alliance_locks (el_self alliance_running) !! "7" = Some 0%nat
  ∧ (length (running alliance_running) ≤ 1)%nat
  ∧ (∀ l, (holders l alliance_running ≤ 1)%nat
          ∧ (locks alliance_running !! l = Some true
             ↔ holders l alliance_running = 1%nat)).
Proof.
  split; [exists alliance_events; by vm_compute|].
  split; [by vm_compute|]. split; [by vm_compute|].
  destruct (group_exclusion alliance_running) as (_ & H1 & H2 & _).
  - exists alliance_events. by vm_compute.
  - split; [exact H1|exact H2].
Defined.

End Exclusion.

Section FailureIsolation.

Lemma run_app (evs1 evs2 : list Event) (el : EventLoop) :
  run (evs1 ++ evs2) el
  = match run evs1 el with
    | Some el1 => run evs2 el1
    | None => None
    end.
Proof.
  revert el. induction evs1 as [|ev evs1 IH]; intros el; [done|].
  cbn. by destruct (step ev el).
Qed.

Lemma step_resume (tid : nat) (t : Task) (r : Awaited) (el el1 : EventLoop)
    (t1 : Task) :
  tasks el !! tid = Some t →
  _process_operation_queue t r el = Some (el1, t1) →
  step (Resume tid r) el = Some (set_tasks (<[tid := t1]> (tasks el1)) el1).
Proof. intros Ht Hres. cbn [step]. by rewrite Ht, Hres. Qed.

Lemma get_alliance_lock_self (k : string) (el : EventLoop) :
  let el' := fst (get_alliance_lock k el) in
  current_operation (el_self el') = current_operation (el_self el)
  ∧ operation_queue (el_self el') = operation_queue (el_self el)
  ∧ log_file (el_self el') = log_file (el_self el)
  ∧ outbox el' = outbox el
  ∧ tasks el' = tasks el.
Proof.
  cbn zeta. unfold get_alliance_lock.
  by destruct (alliance_locks (el_self el) !! k).
Qed.

(** The consumer, waiting with [b] at the head of the queue, takes [b]
    and reaches its callback. *)
Lemma dispatch_runs (el : EventLoop) (tid : nat) (b : Operation)
    (rest : list Operation) (d : string) :
  consistent el →
  tasks el !! tid = Some TGet →
  operation_queue (el_self el) = b :: rest →
  description b = Some d →
  is_Some (callback b) →
  ∃ el2 held,
    run (dispatch_events tid b) el = Some el2
    ∧ tasks el2 !! tid = Some (TCallback b held)
    ∧ current_operation (el_self el2) = Some b
    ∧ operation_queue (el_self el2) = rest
    ∧ log_file (el_self el2)
      = log_file (el_self el) ++ ["Processing operation: " +:+ d]
    ∧ outbox el2 = outbox el.
Proof.
  intros Hc Ht Hq Hd [c Hcb].
  assert (tid < length (tasks el))%nat as Hlt by (by eapply lookup_lt_Some).
  set (el0 := set_el_self (set_operation_queue rest (el_self el)) el).
  assert (_process_operation_queue TGet Returns el = Some (begin_operation b el0)) as Hres
    by (cbn [_process_operation_queue]; by rewrite Hq).
  unfold dispatch_events. unfold begin_operation in Hres. rewrite Hd in Hres.
  unfold group_key. unfold invoke in Hres. rewrite Hcb in Hres.
  set (el1 := el_log _ _) in Hres.
  assert (_process_operation_queue TGet Returns el = Some (el1, TCallback b None) →
    ∃ el2 held,
      run [Resume tid Returns] el = Some el2
      ∧ tasks el2 !! tid = Some (TCallback b held)
      ∧ current_operation (el_self el2) = Some b
      ∧ operation_queue (el_self el2) = rest
      ∧ log_file (el_self el2)
        = log_file (el_self el) ++ ["Processing operation: " +:+ d]
      ∧ outbox el2 = outbox el) as Hplain.
  { intros Hres'.
    exists (set_tasks (<[tid := TCallback b None]> (tasks el1)) el1), None.
    split; [|split; [by apply list_lookup_insert_eq|done]].
    cbn [run]. by rewrite (step_resume tid TGet Returns el el1 (TCallback b None)). }
  destruct (alliance_id b) as [k|] eqn:Hk; [|by apply Hplain].
  destruct (truthy k) eqn:Htk; [|by apply Hplain].
  clear Hplain.
  destruct (get_alliance_lock_self (str_key k) el1) as (Hcur & Hqu & Hlog & Hout & Hts).
  destruct (get_alliance_lock (str_key k) el1) as [el2 l] eqn:Hgl.
  cbn [fst snd] in *.
  set (el3 := set_tasks (<[tid := TAcquire b l]> (tasks el2)) el2).
  assert (step (Resume tid Returns) el = Some el3) as Hstep1
    by (by apply (step_resume tid TGet)).
  pose proof (step_consistent _ _ _ Hc Hstep1) as Hc3.
  assert (tasks el3 !! tid = Some (TAcquire b l)) as Ht3.
  { subst el3. cbn. apply list_lookup_insert_eq. by rewrite Hts. }
  assert (locks el3 !! l = Some false) as Hl.
  { pose proof Hc3 as (_ & _ & Hreg3 & _ & Hok3).
    destruct (Hok3 _ _ Ht3) as (_ & k' & _ & Hk').
    apply Hreg3 in Hk'. apply lookup_lt_is_Some in Hk' as [[] Hb]; [|done].
    by apply (consistent_locks el3 tid _ Hc3 Ht3 eq_refl) in Hb. }
  set (el4 := set_locks (<[l := true]> (locks el3)) el3).
  exists (set_tasks (<[tid := TCallback b (Some l)]> (tasks el4)) el4), (Some l).
  split.
  { cbn [run]. rewrite Hstep1.
    rewrite (step_resume tid (TAcquire b l) Returns el3 el4
               (TCallback b (Some l))); [done|done|].
    cbn [_process_operation_queue]. rewrite Hl. unfold invoke. by rewrite Hcb. }
  split.
  { cbn. apply list_lookup_insert_eq. rewrite length_insert, Hts. done. }
  cbn. rewrite Hcur, Hqu, Hlog, Hout. done.
Qed.


(** The consumer comes out of a callback that raised an [Exception]
    waiting for the next operation. *)
Lemma failure_handled (el : EventLoop) (tid : nat) (a : Operation)
    (held : option nat) (e : PyExc) (sent : Awaited) :
  consistent el →
  tasks el !! tid = Some (TCallback a held) →
  is_Exception e = true →
  ∃ d el1,
    description a = Some d
    ∧ run (failure_events tid a e sent) el = Some el1
    ∧ tasks el1 !! tid = Some TGet
    ∧ log_file (el_self el1)
      = log_file (el_self el)
        ++ ["Operation failed: " +:+ d +:+ " - Error: " +:+ str_exc e]
    ∧ outbox el1
      = outbox el
        ++ match interaction a with
           | Some i => [(i, "❌ Operation failed: " +:+ str_exc e)]
           | None => []
           end
    ∧ current_operation (el_self el1) = None
    ∧ operation_queue (el_self el1) = operation_queue (el_self el).
Proof.
  intros Hc Ht He. pose proof Hc as (_ & _ & _ & _ & Hok).
  destruct (Hok _ _ Ht) as ([d Hd] & _ & _). exists d.
  assert (tid < length (tasks el))%nat as Hlt by (by eapply lookup_lt_Some).
  destruct (release_objects held el) as (Hrt & Hrs & _).
  assert (outbox (release held el) = outbox el) as Hro by (by destruct held).
  set (el0 := el_log ("Operation failed: " +:+ d +:+ " - Error: " +:+ str_exc e)
                (release held el)).
  unfold failure_events.
  destruct (interaction a) as [i|] eqn:Hi.
  - set (el1 := send i ("❌ Operation failed: " +:+ str_exc e) el0).
    set (el2 := set_tasks (<[tid := TSend a]> (tasks el1)) el1).
    assert (step (Resume tid (Raises e)) el = Some el2) as Hstep1.
    { apply (step_resume tid (TCallback a held)); [done|].
      cbn [_process_operation_queue]. unfold inner_except. by rewrite He, Hd, Hi. }
    assert (tasks el2 !! tid = Some (TSend a)) as Ht2.
    { subst el2. cbn. apply list_lookup_insert_eq. by rewrite Hrt. }
    exists (set_tasks (<[tid := TGet]> (tasks (finally_clause el2)))
              (finally_clause el2)).
    split; [done|]. split.
    { cbn [run]. rewrite Hstep1.
      by rewrite (step_resume tid (TSend a) sent el2 (finally_clause el2) TGet);
        [| |destruct sent]. }
    split.
    { cbn. apply list_lookup_insert_eq. by rewrite !length_insert, Hrt. }
    cbn. by rewrite Hrs, Hro.
  - exists (set_tasks (<[tid := TGet]> (tasks (finally_clause el0)))
              (finally_clause el0)).
    split; [done|]. split.
    { cbn [run].
      rewrite (step_resume tid (TCallback a held) (Raises e) el
                 (finally_clause el0) TGet); [done|done|].
      cbn [_process_operation_queue]. unfold inner_except. by rewrite He, Hd, Hi. }
    split.
    { cbn. apply list_lookup_insert_eq. by rewrite Hrt. }
    cbn. by rewrite Hrs, Hro, app_nil_r.
Qed.

(** C3 (amended).  Let the consumer be inside the callback of [a] with [b]
    (a dict with a description and a callback) next in the queue.  If the
    callback of [a] raises an exception of class [Exception], the consumer
    logs the failure, sends it to the interaction of [a] when there is one
    (however that [send] ends), clears the current operation and goes back
    to waiting on the queue, the queue untouched; from there it takes [b]
    and reaches the callback of [b]: the task has not finished and nothing
    was raised out of it. *)
Theorem callback_failure_isolated (el : EventLoop) (tid : nat)
    (a b : Operation) (held : option nat) (rest : list Operation)
    (e : PyExc) (sent : Awaited) :
  reachable el →
  tasks el !! tid = Some (TCallback a held) →
  operation_queue (el_self el) = b :: rest →
  is_Exception e = true →
  is_Some (description b) →
  is_Some (callback b) →
  ∃ d el1 el2 held_b,
    description a = Some d
    ∧ run (failure_events tid a e sent) el = Some el1
    ∧ tasks el1 !! tid = Some TGet
    ∧ log_file (el_self el1)
      = log_file (el_self el)
        ++ ["Operation failed: " +:+ d +:+ " - Error: " +:+ str_exc e]
    ∧ outbox el1
      = outbox el
        ++ match interaction a with
           | Some i => [(i, "❌ Operation failed: " +:+ str_exc e)]
           | None => []
           end
    ∧ current_operation (el_self el1) = None
    ∧ operation_queue (el_self el1) = b :: rest
    ∧ run (failure_events tid a e sent ++ dispatch_events tid b) el = Some el2
    ∧ tasks el2 !! tid = Some (TCallback b held_b)
    ∧ current_operation (el_self el2) = Some b
    ∧ operation_queue (el_self el2) = rest.
Proof.
  intros Hreach Ht Hq He [db Hdb] Hcb.
  pose proof (reachable_consistent el Hreach) as Hc.
  destruct (failure_handled el tid a held e sent Hc Ht He)
    as (d & el1 & Hd & Hrun1 & Ht1 & Hlog1 & Hout1 & Hcur1 & Hq1).
  pose proof (run_consistent _ _ _ Hc Hrun1) as Hc1.
  rewrite Hq in Hq1.
  destruct (dispatch_runs el1 tid b rest db Hc1 Ht1 Hq1 Hdb Hcb)
    as (el2 & held_b & Hrun2 & Ht2 & Hcur2 & Hq2 & _).
  exists d, el1, el2, held_b. rewrite run_app, Hrun1. done.
Qed.

Lemma callback_failure_isolated_witness :
  reachable two_queued
  ∧ tasks two_queued !! 0%nat
    = Some (TCallback (set_was_queued false alliance_operation) (Some 0%nat))
  ∧ operation_queue (el_self two_queued)
    = [set_was_queued true second_operation]
  ∧ ∃ el2,
      run (failure_events 0 (set_was_queued false alliance_operation)
             (Exception "boom") Returns
           ++ dispatch_events 0 (set_was_queued true second_operation))
        two_queued = Some el2
      ∧ tasks el2 !! 0%nat
        = Some (TCallback (set_was_queued true second_operation) None)
      ∧ outbox el2 = [(DiscordInteraction 1, "❌ Operation failed: boom")].
Proof.
  split; [exists two_queued_events; by vm_compute|].
  split; [by vm_compute|]. split; [by vm_compute|].
  destruct (callback_failure_isolated two_queued 0
              (set_was_queued false alliance_operation)
              (set_was_queued true second_operation)
              (Some 0%nat) [] (Exception "boom") Returns)
    as (d & el1 & el2 & held_b & _ & _ & _ & _ & _ & _ & _ & Hrun & _).
  - exists two_queued_events. by vm_compute.
  - by vm_compute.
  - by vm_compute.
  - reflexivity.
  - eexists. reflexivity.
  - eexists. reflexivity.
  - exists el2. split; [exact Hrun|].
    vm_compute in Hrun. injection Hrun as <-. by vm_compute.
Defined.

(** C3 as stated fails for an exception that is not an [Exception]: when
    the callback of the first operation raises [CancelledError] the
    consumer logs the cancellation and finishes; the second operation
    stays in the queue and the finished task cannot be resumed. *)
Lemma callback_cancelled_ends_loop :
  tasks two_queued
  = [TCallback (set_was_queued false alliance_operation) (Some 0%nat)]
  ∧ operation_queue (el_self two_queued)
    = [set_was_queued true second_operation]
  ∧ run [Resume 0 (Raises CancelledError)] two_queued
    = Some (after_callback_raised CancelledError)
  ∧ tasks (after_callback_raised CancelledError) = [TDone]
  ∧ operation_queue (el_self (after_callback_raised CancelledError))
    = [set_was_queued true second_operation]
  ∧ outbox (after_callback_raised CancelledError) = []
  ∧ last (log_file (el_self (after_callback_raised CancelledError)))
    = Some "Queue processor cancelled"
  ∧ ∀ r, step (Resume 0 r) (after_callback_raised CancelledError) = None.
Proof.
  split; [by vm_compute|]. split; [by vm_compute|]. split; [by vm_compute|].
  split; [by vm_compute|]. split; [by vm_compute|]. split; [by vm_compute|].
  split; [by vm_compute|]. intros r. by vm_compute.
Qed.

End FailureIsolation.

Section LoopExit.

Lemma outer_except_done (e : PyExc) (el : EventLoop) :
  Task_done (snd (outer_except e el)) = true →
  is_Exception e = false
  ∧ (snd (outer_except e el) = TDone → e = CancelledError).
Proof. unfold outer_except. by destruct e. Qed.

Lemma inner_except_done (operation : Operation) (e : PyExc) (el : EventLoop) :
  Task_done (snd (inner_except operation e el)) = true →
  is_Exception e = false
  ∧ (snd (inner_except operation e el) = TDone → e = CancelledError).
Proof.
  unfold inner_except. destruct (is_Exception e) eqn:He.
  - destruct (description operation); [|done].
    by destruct (interaction operation).
  - intros Hd. by destruct (outer_except_done e (finally_clause el) Hd).
Qed.

(** C7 (amended).
    - The loop is left only by an exception raised into the coroutine:
      one that is not an [Exception] ([CancelledError] or another
      [BaseException]) or, whatever its class, one raised by the
      one-second sleep or before the coroutine started; it is left
      through [break] only for [CancelledError].
    - A fault of class [Exception] that reaches the outer handlers (raised
      by [get], or the [KeyError] of an operation without a description)
      is logged and followed by [asyncio.sleep(1)], after which the loop
      waits on the queue again.
    - [CancelledError] raised at [get], at the lock acquisition or out of
      the callback is logged and ends the loop with the queue as it was;
      a finished task is not resumed, so no further item is taken. *)
Theorem consumer_loop_exits :
  (∀ t r el el' t',
     _process_operation_queue t r el = Some (el', t') →
     Task_done t' = true →
     ∃ e, r = Raises e
          ∧ (is_Exception e = false ∨ (∃ d, t = TSleep d) ∨ t = TCreated)
          ∧ (t' = TDone → e = CancelledError))
  ∧ (∀ e el,
       _process_operation_queue TGet (Raises e) el
       = Some (if is_Exception e then
                 (el_log ("Queue processor error: " +:+ str_exc e) el, TSleep 1)
               else outer_except e el))
  ∧ (∀ operation rest el,
       operation_queue (el_self el) = operation :: rest →
       description operation = None →
       ∃ el', _process_operation_queue TGet Returns el = Some (el', TSleep 1)
              ∧ log_file (el_self el')
                = log_file (el_self el)
                  ++ ["Queue processor error: 'description'"]
              ∧ operation_queue (el_self el') = rest)
  ∧ (∀ d el, _process_operation_queue (TSleep d) Returns el = Some (el, TGet))
  ∧ (∀ t el,
       match t with
       | TGet | TAcquire _ _ | TCallback _ _ =>
           ∃ el', _process_operation_queue t (Raises CancelledError) el = Some (el', TDone)
                  ∧ log_file (el_self el')
                    = log_file (el_self el) ++ ["Queue processor cancelled"]
                  ∧ operation_queue (el_self el') = operation_queue (el_self el)
       | _ => True
       end)
  ∧ (∀ r el, _process_operation_queue TDone r el = None)
  ∧ (∀ e r el, _process_operation_queue (TRaised e) r el = None).
Proof.
  split; [|split; [|split; [|split; [|split; [|split]]]]].
  - intros t r el el' t' Hres Hdone.
    destruct t as [| |operation l|operation held|operation|d| |e0];
      destruct r as [|e]; cbn [_process_operation_queue] in Hres; try done.
    + (* TCreated, returns *) injection Hres as <- <-. done.
    + (* TCreated, raises *) injection Hres as <- <-.
      exists e. split; [done|]. split; [by right; right|done].
    + (* TGet, returns *)
      destruct (operation_queue (el_self el)) as [|operation rest]; [done|].
      injection Hres as Hres. apply (f_equal snd) in Hres. cbn [snd] in Hres.
      subst t'. exfalso. revert Hdone. unfold begin_operation.
      destruct (description operation); [|done].
      assert (∀ el0, Task_done (snd (invoke operation None el0)) = false) as Hi.
      { intros el0. unfold invoke. destruct (callback operation); [done|].
        unfold inner_except. cbn [is_Exception].
        match goal with |- context [description operation] =>
          destruct (description operation) end; [|done].
        by destruct (interaction operation). }
      destruct (alliance_id operation) as [k|]; [|by rewrite Hi].
      destruct (truthy k); [|by rewrite Hi].
      by destruct (get_alliance_lock _ _).
    + (* TGet, raises *)
      injection Hres as Hres. exists e. split; [done|].
      destruct (outer_except_done e el) as [He Hbreak].
      * by rewrite Hres.
      * split; [by left|]. intros ->. apply Hbreak. by rewrite Hres.
    + (* TAcquire, returns *)
      destruct (locks el !! l) as [[]|]; try done.
      injection Hres as Hres. apply (f_equal snd) in Hres. cbn [snd] in Hres.
      subst t'. exfalso. revert Hdone. unfold invoke.
      destruct (callback operation); [done|].
      unfold inner_except. cbn [is_Exception].
      destruct (description operation); [|done].
      by destruct (interaction operation).
    + (* TAcquire, raises *)
      injection Hres as Hres. exists e. split; [done|].
      destruct (inner_except_done operation e el) as [He Hbreak].
      * by rewrite Hres.
      * split; [by left|]. intros ->. apply Hbreak. by rewrite Hres.
    + (* TCallback, returns *)
      exfalso. destruct (description operation).
      * injection Hres as <- <-. done.
      * injection Hres as Hres. apply (f_equal snd) in Hres. cbn [snd] in Hres.
        subst t'. revert Hdone. unfold inner_except. cbn [is_Exception].
        destruct (description operation); [|done].
        by destruct (interaction operation).
    + (* TCallback, raises *)
      injection Hres as Hres. exists e. split; [done|].
      destruct (inner_except_done operation e (release held el)) as [He Hbreak].
      * by rewrite Hres.
      * split; [by left|]. intros ->. apply Hbreak. by rewrite Hres.
    + (* TSend *) injection Hres as <- <-. done.
    + injection Hres as <- <-. done.
    + (* TSleep, returns *) injection Hres as <- <-. done.
    + (* TSleep, raises *) injection Hres as <- <-.
      exists e. split; [done|]. split; [right; left; by exists d|done].
  - intros e el. cbn [_process_operation_queue]. unfold outer_except. by destruct e.
  - intros operation rest el Hq Hd. cbn [_process_operation_queue]. rewrite Hq.
    unfold begin_operation. rewrite Hd. eexists. split; [done|]. done.
  - done.
  - intros t el. destruct t; try done; cbn [_process_operation_queue].
    + by eexists.
    + unfold inner_except. cbn [is_Exception]. by eexists.
    + unfold inner_except. cbn [is_Exception]. eexists. split; [done|].
      by destruct held.
  - done.
  - done.
Qed.


(** C7 as stated fails for a fault that is not an [Exception]: when the
    callback raises one ([SystemExit], say), nothing is logged, there is
    no pause, and the task ends with that exception although it was not
    cancelled; the second operation stays in the queue. *)
Lemma callback_exit_ends_loop :
  run [Resume 0 (Raises (BaseException "SystemExit"))] two_queued
  = Some (after_callback_raised (BaseException "SystemExit"))
  ∧ tasks (after_callback_raised (BaseException "SystemExit"))
    = [TRaised (BaseException "SystemExit")]
  ∧ log_file (el_self (after_callback_raised (BaseException "SystemExit")))
    = log_file (el_self two_queued)
  ∧ operation_queue (el_self (after_callback_raised (BaseException "SystemExit")))
    = [set_was_queued true second_operation]
  ∧ ∀ r, step (Resume 0 r) (after_callback_raised (BaseException "SystemExit"))
         = None.
Proof.
  split; [by vm_compute|]. split; [by vm_compute|]. split; [by vm_compute|].
  split; [by vm_compute|]. intros r. by vm_compute.
Qed.

(** Not covered by the statement above: a [CancelledError] raised while
    the failure is being sent to the interaction is caught by the bare
    [except:] around the [send]; the loop goes on and takes the next
    operation. *)
Remark cancellation_during_send_is_swallowed :
  ∃ el,
    run [Resume 0 (Raises (Exception "boom"));
         Resume 0 (Raises CancelledError);
         Resume 0 Returns] two_queued = Some el
    ∧ tasks el = [TCallback (set_was_queued true second_operation) None]
    ∧ operation_queue (el_self el) = [].
Proof. eexists. split; [by vm_compute|]. by vm_compute. Qed.

End LoopExit.

(** ** Further properties of the rate window *)

Section WindowMore.

Lemma filter_later (now now' window : Q) (l : list Q) :
  (now <= now')%Q →
  List.filter (in_window now' window) (List.filter (in_window now window) l)
  = List.filter (in_window now' window) l.
Proof.
  intros Hle. induction l as [|t l IH]; [done|]. cbn.
  destruct (in_window now window t) eqn:E; cbn.
  - by rewrite IH.
  - rewrite IH. destruct (in_window now' window t) eqn:E'; [|done].
    apply in_window_lt in E'. apply Qltb_ge in E. exfalso.
    apply (Qlt_not_le _ _ E'). eapply Qle_trans; [exact E|].
    unfold Qminus. by apply Qplus_le_l.
Qed.

Lemma evict_later (now now' : Q) (self : LoginHandler) :
  (now <= now')%Q →
  evict now' (set_api_requests (evict now self) self) = evict now' self.
Proof. intros Hle. unfold evict. cbn. by apply filter_later. Qed.

(** X1.  Looking at the limiter early does not change what it says later:
    for [now <= now'], a check or an info call at [now'] returns the same
    answer and leaves the same handler whether or not a check or an info
    call was made at [now] before. *)
Theorem later_check_unaffected (now now' : Q) (self : LoginHandler) :
  (now <= now')%Q →
  _check_rate_limit now' (fst (_check_rate_limit now self))
  = _check_rate_limit now' self
  ∧ get_rate_limit_info now' (fst (get_rate_limit_info now self))
    = get_rate_limit_info now' self
  ∧ _check_rate_limit now' (fst (get_rate_limit_info now self))
    = _check_rate_limit now' self
  ∧ get_rate_limit_info now' (fst (_check_rate_limit now self))
    = get_rate_limit_info now' self.
Proof.
  intros Hle. pose proof (evict_later now now' self Hle) as Hev.
  assert (fst (_check_rate_limit now self)
          = set_api_requests (evict now self) self) as ->.
  { unfold _check_rate_limit. cbn zeta. by destruct (_ <? _)%Z. }
  assert (fst (get_rate_limit_info now self)
          = set_api_requests (evict now self) self) as -> by done.
  unfold _check_rate_limit, get_rate_limit_info. cbn zeta.
  rewrite Hev. done.
Qed.

Lemma later_check_unaffected_witness :
  (1 <= 70)%Q
  ∧ _check_rate_limit 70
      (fst (_check_rate_limit 1 (after_calls [0; 20; 30]%Q (configured 2 60))))
    = _check_rate_limit 70 (after_calls [0; 20; 30]%Q (configured 2 60)).
Proof.
  split; [by vm_compute|].
  apply (later_check_unaffected 1 70
           (after_calls [0; 20; 30]%Q (configured 2 60))).
  by vm_compute.
Defined.

(** X2.  [_get_wait_time] is never negative and is 0 on an empty window;
    when the first timestamp is not in the future it is at most
    [rate_limit_window]; and right after a check that refused, at the same
    clock reading, it is the wait that the check returned. *)
Theorem get_wait_time_spec (now : Q) (self : LoginHandler) :
  (0 <= _get_wait_time now self)%Q
  ∧ (api_requests self = [] → _get_wait_time now self = 0%Q)
  ∧ (∀ t0 rest, api_requests self = t0 :: rest → (t0 <= now)%Q →
                (0 <= rate_limit_window self)%Q →
                (_get_wait_time now self <= rate_limit_window self)%Q)
  ∧ (fst (snd (_check_rate_limit now self)) = false →
     _get_wait_time now (fst (_check_rate_limit now self))
     = snd (snd (_check_rate_limit now self))).
Proof.
  split; [apply max0_nonneg|]. split; [|split].
  - unfold _get_wait_time. by intros ->.
  - intros t0 rest Hreq Ht0 Hw. unfold _get_wait_time. rewrite Hreq.
    unfold max0. destruct (Qltb 0 _); [|done].
    rewrite <- (Qplus_0_r (rate_limit_window self)) at 2.
    unfold Qminus. apply Qplus_le_r.
    apply (Qopp_le_compat 0). rewrite <- (Qplus_opp_r t0).
    by apply Qplus_le_l.
  - unfold _check_rate_limit, _get_wait_time. cbn zeta.
    by destruct (_ <? _)%Z.
Qed.

End WindowMore.

Section Quota.

Lemma check_permitted_length (now : Q) (self : LoginHandler) :
  fst (snd (_check_rate_limit now self))
  = (Z.of_nat (length (evict now self)) <? rate_limit self)%Z.
Proof.
  unfold _check_rate_limit. cbn zeta.
  replace (api_requests (set_api_requests (evict now self) self))
    with (evict now self) by done.
  replace (rate_limit (set_api_requests (evict now self) self))
    with (rate_limit self) by done.
  by destruct (_ <? _)%Z.
Qed.

Lemma fetch_within_quota (fid : string) (use_proxy : option string) (w : World) :
  within_quota (w_self w) →
  within_quota (w_self (snd (fetch_player_data fid use_proxy w))).
Proof.
  unfold within_quota. intros Hq.
  destruct (fetch_window fid use_proxy w) as (Hw & _ & Hs & _).
  cbn zeta in Hw, Hs. destruct Hs as (_ & _ & _ & _ & _ & Hl & _).
  rewrite Hw, Hl, length_app. unfold recorded.
  rewrite check_permitted_length.
  pose proof (evict_length (clock w) (w_self w)).
  destruct (_ <? _)%Z eqn:E; cbn [andb].
  - apply Z.ltb_lt in E.
    destruct (api_available (w_self w)); [destruct (net w (posts w))|];
      cbn [length]; lia.
  - cbn [length]. lia.
Qed.

Lemma batch_iteration_preserves (P : LoginHandler → Prop)
    (cb : option ProgressCallback) (total i : Z) (fid : string)
    (acc : list FetchResult) (w : World) :
  (∀ w0, P (w_self w0) → P (w_self (snd (fetch_player_data fid None w0)))) →
  P (w_self w) →
  P (w_self (snd (batch_iteration cb total i fid acc w))).
Proof.
  intros Hfetch HP. unfold batch_iteration, mbind, M_bind, mret, M_ret.
  destruct (report_spec cb (i + 1) total (FetchingPlayer (i + 1) total) w)
    as (Hs1 & _).
  destruct (report cb (i + 1) total (FetchingPlayer (i + 1) total) w)
    as [[[]|e1] w1]; cbn [fst snd] in *; [|by rewrite Hs1].
  rewrite <- Hs1 in HP. apply Hfetch in HP.
  destruct (fetch_player_data fid None w1) as [[r1|e2] w2];
    cbn [fst snd] in *; [|done].
  unfold sleep. destruct (is_rate_limited r1).
  - set (wait := default 60%Q (wait_time r1)).
    destruct (report_spec cb (i + 1) total (RateLimitedWaiting wait) w2)
      as (Hs3 & _).
    destruct (report cb (i + 1) total (RateLimitedWaiting wait) w2)
      as [[[]|e3] w3]; cbn [fst snd] in *; [|by rewrite Hs3].
    set (w4 := emit (ESleep wait) (advance (max0 wait) w3)).
    assert (P (w_self w4)) as H4 by (subst w4; cbn; by rewrite Hs3).
    apply Hfetch in H4.
    destruct (fetch_player_data fid None w4) as [[r2|e5] w5];
      cbn [fst snd] in *; [|done].
    by destruct (i <? total - 1)%Z.
  - by destruct (i <? total - 1)%Z.
Qed.

Lemma batch_loop_preserves (P : LoginHandler → Prop)
    (cb : option ProgressCallback) (total : Z) (fids : list string) :
  (∀ fid w0, P (w_self w0) → P (w_self (snd (fetch_player_data fid None w0)))) →
  ∀ i acc w, P (w_self w) → P (w_self (snd (batch_loop cb total i fids acc w))).
Proof.
  intros Hfetch. induction fids as [|fid fids IH]; intros i acc w HP; [done|].
  cbn [batch_loop]. unfold mbind, M_bind.
  pose proof (batch_iteration_preserves P cb total i fid acc w (Hfetch fid) HP)
    as H1.
  destruct (batch_iteration cb total i fid acc w) as [[acc1|e] w1];
    cbn [fst snd] in *; [|done].
  by apply IH.
Qed.

(** X3.  Used by one caller at a time, the fetches never let the window
    grow past the limit: if the window holds at most [rate_limit]
    timestamps before [fetch_player_data] or [_fetch_batch_internal], it
    holds at most [rate_limit] after, however the service answers and
    whether or not the call returns. *)
Theorem fetches_keep_quota (w : World) :
  within_quota (w_self w) →
  (∀ fid use_proxy,
     within_quota (w_self (snd (fetch_player_data fid use_proxy w))))
  ∧ (∀ fids progress_callback total,
       within_quota
         (w_self (snd (_fetch_batch_internal fids progress_callback total w)))).
Proof.
  intros Hq. split.
  - intros fid use_proxy. by apply fetch_within_quota.
  - intros fids cb total. unfold _fetch_batch_internal.
    apply batch_loop_preserves; [|done].
    intros fid w0. apply fetch_within_quota.
Qed.

Lemma fetches_keep_quota_witness :
  within_quota (w_self busy_world)
  ∧ within_quota
      (w_self (snd (_fetch_batch_internal ["a"; "b"] None 2 busy_world))).
Proof.
  split; [by vm_compute|].
  destruct (fetches_keep_quota busy_world) as [_ H]; [by vm_compute|].
  apply H.
Defined.


(** A result carries a wait only when the local check refused. *)
Lemma fetch_wait_time (fid : string) (use_proxy : option string) (w : World)
    (r : FetchResult) (wt : Q) :
  fst (fetch_player_data fid use_proxy w) = Return r →
  wait_time r = Some wt →
  fst (snd (_check_rate_limit (clock w) (w_self w))) = false
  ∧ wt = snd (snd (_check_rate_limit (clock w) (w_self w)))
  ∧ clock (snd (fetch_player_data fid use_proxy w)) = clock w
  ∧ w_self (snd (fetch_player_data fid use_proxy w))
    = set_api_requests (evict (clock w) (w_self w)) (w_self w).
Proof.
  unfold fetch_player_data, fetch_player_data_body.
  assert (fst (_check_rate_limit (clock w) (w_self w))
          = set_api_requests (evict (clock w) (w_self w)) (w_self w)) as Hself.
  { unfold _check_rate_limit. cbn zeta. by destruct (_ <? _)%Z. }
  destruct (_check_rate_limit (clock w) (w_self w)) as [self [permitted wait]].
  cbn [fst snd] in *. subst self.
  destruct permitted; cbn [negb].
  2:{ cbn. intros [= <-]. cbn. by intros [= <-]. }
  destruct (api_available _); cbn [negb].
  2:{ cbn. intros [= <-]. done. }
  match goal with |- context [net ?x ?y] => destruct (net x y)
    as [e|latency http_status body] end.
  - unfold fetch_except. destruct (is_Exception e); cbn; [|done].
    intros [= <-]. done.
  - destruct (http_status =? 200)%Z; [destruct body as [j|e]|].
    + cbn. intros [= <-]. unfold classify.
      destruct (json_data j); [done|]. by case_bool_decide.
    + unfold fetch_except. destruct (is_Exception e); cbn; [|done].
      intros [= <-]. done.
    + destruct (http_status =? 429)%Z; cbn; intros [= <-]; done.
Qed.

(** X4.  In a window within the limit (and a limit of at least one), a
    fetch that the local check refused is let through by the local check
    after sleeping the wait it advised: a second [fetch_player_data] after
    [sleep(wait_time)] is not refused locally, so the result it returns
    carries no ['wait_time']. *)
Theorem retry_is_let_through (fid : string) (use_proxy : option string)
    (w : World) (r1 : FetchResult) (wt : Q) :
  within_quota (w_self w) →
  (0 < rate_limit (w_self w))%Z →
  fst (fetch_player_data fid use_proxy w) = Return r1 →
  wait_time r1 = Some wt →
  let w2 := snd (sleep wt (snd (fetch_player_data fid use_proxy w))) in
  fst (snd (_check_rate_limit (clock w2) (w_self w2))) = true
  ∧ match fst (fetch_player_data fid use_proxy w2) with
    | Return r2 => wait_time r2 = None
    | Raise _ => True
    end.
Proof.
  intros Hq Hlim Hr1 Hwt.
  destruct (fetch_wait_time fid use_proxy w r1 wt Hr1 Hwt)
    as (Hperm & Hwait & Hclock & Hself).
  cbn zeta.
  set (w1 := snd (fetch_player_data fid use_proxy w)) in *.
  set (w2 := snd (sleep wt w1)).
  assert (fst (snd (_check_rate_limit (clock w2) (w_self w2))) = true) as Hok.
  { rewrite check_permitted_length in Hperm. apply Z.ltb_ge in Hperm.
    pose proof (evict_length (clock w) (w_self w)) as Hle.
    unfold within_quota in Hq.
    assert (evict (clock w) (w_self w) = api_requests (w_self w)) as Hev.
    { unfold evict. apply filter_full_length. unfold evict in *. lia. }
    rewrite Hev in Hperm.
    destruct (api_requests (w_self w)) as [|t0 rest] eqn:Hreq.
    { cbn in Hperm. lia. }
    assert (in_window (clock w) (rate_limit_window (w_self w)) t0 = true) as Ht0.
    { unfold evict in Hev. rewrite Hreq in Hev. cbn in Hev.
      destruct (in_window _ _ t0); [done|].
      apply (f_equal length) in Hev. cbn in Hev.
      pose proof (List.filter_length_le
                    (in_window (clock w) (rate_limit_window (w_self w))) rest).
      lia. }
    apply in_window_lt in Ht0.
    assert (wt = max0 (rate_limit_window (w_self w) - (clock w - t0))) as Hwt'.
    { rewrite Hwait. rewrite check_refused by (rewrite Hev; lia).
      cbn [fst snd]. by rewrite Hev. }
    assert (0 < rate_limit_window (w_self w) - (clock w - t0))%Q as Hpos.
    { rewrite <- (Qplus_opp_r (clock w - t0)). unfold Qminus at 2.
      by apply Qplus_lt_l. }
    rewrite (max0_of_pos _ Hpos) in Hwt'.
    rewrite check_permitted_length. apply Z.ltb_lt.
    assert (clock w2 = (clock w + max0 wt)%Q) as -> by (by rewrite <- Hclock).
    assert (w_self w2 = set_api_requests (t0 :: rest) (w_self w)) as ->.
    { subst w2. cbn. fold w1. rewrite Hself, Hev. done. }
    unfold evict. cbn [api_requests rate_limit rate_limit_window
                       set_api_requests List.filter].
    assert (in_window (clock w + max0 wt) (rate_limit_window (w_self w)) t0
            = false) as ->.
    { apply Qltb_ge. rewrite Hwt', (max0_of_pos _ Hpos).
      assert (clock w + (rate_limit_window (w_self w) - (clock w - t0)) - t0
              == rate_limit_window (w_self w))%Q as -> by ring.
      apply Qle_refl. }
    pose proof (List.filter_length_le
                  (in_window (clock w + max0 wt) (rate_limit_window (w_self w)))
                  rest).
    cbn in Hq. lia. }
  split; [done|].
  destruct (fst (fetch_player_data fid use_proxy w2)) as [r2|e] eqn:Hr2; [|done].
  destruct (wait_time r2) as [wt2|] eqn:Hwt2; [|done].
  destruct (fetch_wait_time fid use_proxy w2 r2 wt2 Hr2 Hwt2) as (Hno & _).
  congruence.
Qed.

Lemma retry_is_let_through_witness :
  within_quota (w_self busy_world)
  ∧ (∃ r1, fst (fetch_player_data "a" None busy_world) = Return r1
           ∧ wait_time r1 = Some 30%Q)
  ∧ fst (snd (_check_rate_limit
                (clock (snd (sleep 30 (snd (fetch_player_data "a" None busy_world)))))
                (w_self (snd (sleep 30 (snd (fetch_player_data "a" None busy_world)))))))
    = true.
Proof.
  split; [by vm_compute|]. split.
  { eexists. split; by vm_compute. }
  eapply (retry_is_let_through "a" None busy_world).
  - by vm_compute.
  - by vm_compute.
  - by vm_compute.
  - by vm_compute.
Defined.


(** X5.  The dict [fetch_player_data] returns is coherent: ['data'] is
    present exactly for status success and ['error_message'] exactly for
    the other statuses; ['wait_time'] is present exactly when the local
    check refused; ['err_code'] is 40004 exactly for status not_found; and
    success or not_found is reported only for a post answered with status
    200.  An exception leaves the method only if it is not an
    [Exception]. *)
Theorem fetch_result_shape (fid : string) (use_proxy : option string)
    (w : World) :
  match fst (fetch_player_data fid use_proxy w) with
  | Return r =>
      (status r = Success ↔ is_Some (data r))
      ∧ (status r = Success ↔ error_message r = None)
      ∧ (is_Some (wait_time r)
         ↔ fst (snd (_check_rate_limit (clock w) (w_self w))) = false)
      ∧ (status r = NotFound ↔ err_code r = Some (Code 40004))
      ∧ (status r = Success ∨ status r = NotFound →
         ∃ latency body, net w (posts w) = Response latency 200 body)
  | Raise e => is_Exception e = false
  end.
Proof.
  unfold fetch_player_data, fetch_player_data_body.
  destruct (_check_rate_limit (clock w) (w_self w)) as [self [permitted wait]].
  cbn [fst snd].
  destruct permitted; cbn [negb].
  2:{ cbn. repeat split; try done; try (by intros [? ?]); try (by eexists);
        try (by intros [|]). }
  destruct (api_available _); cbn [negb].
  2:{ cbn. repeat split; try done; try (by intros [? ?]); try (by intros [|]). }
  match goal with |- context [net ?x ?y] =>
    change (net x y) with (net w (posts w));
    destruct (net w (posts w)) as [e|latency http_status body] end.
  - unfold fetch_except. destruct (is_Exception e) eqn:He; cbn; [|done].
    repeat split; try done; try (by intros [? ?]); try (by intros [|]).
  - destruct (http_status =? 200)%Z eqn:E200; [destruct body as [j|e]|].
    + apply Z.eqb_eq in E200 as ->. cbn [fst]. unfold classify.
      destruct (json_data j) as [d|].
      * cbn. repeat split; try done; try (by intros [? ?]); try (by eexists).
        intros _. by eexists _, _.
      * case_bool_decide as Hcode; cbn.
        -- repeat split; try done; try (by intros [? ?]).
           intros _. by eexists _, _.
        -- repeat split; try done; try (by intros [? ?]); try (by intros [|]).
           intros [= Hc]. exfalso. apply Hcode.
           destruct (json_err_code j); [|done]. by injection Hc as ->.
    + unfold fetch_except. destruct (is_Exception e) eqn:He; cbn; [|done].
      repeat split; try done; try (by intros [? ?]); try (by intros [|]).
    + destruct (http_status =? 429)%Z; cbn;
        repeat split; try done; try (by intros [? ?]); try (by intros [|]).
Qed.

End Quota.

Section Availability.

Lemma probe_flag (test_fid : string) (w : World) (st : ApiStatus) :
  fst (check_api_availability test_fid w) = Return st →
  api_available (w_self (snd (check_api_availability test_fid w)))
  = status_api_available st.
Proof.
  unfold check_api_availability.
  destruct (net w (posts w)) as [e|latency http_status body].
  - destruct (is_Exception e); cbn; [|done]. by intros [= <-].
  - cbn. by intros [= <-].
Qed.

(** X6.  [check_api_availability] sends exactly one request and does not
    count it: the rate window, the limiter settings and the scheduler
    state are as before.  When it returns, the flag it reports is the one
    it stored in [api_available], and it is true exactly when the post was
    answered with status 200 or 429; a post that raises an [Exception]
    gives false.  An exception that is not an [Exception] leaves the
    method with [api_available] as it was. *)
Theorem check_api_availability_spec (test_fid : string) (w : World) :
  let out := check_api_availability test_fid w in
  posts (snd out) = S (posts w)
  ∧ api_requests (w_self (snd out)) = api_requests (w_self w)
  ∧ same_scheduler (w_self w) (w_self (snd out))
  ∧ match fst out with
    | Return st =>
        status_api_url st = api_url
        ∧ api_available (w_self (snd out)) = status_api_available st
        ∧ (status_api_available st = true
           ↔ ∃ latency http_status body,
               net w (posts w) = Response latency http_status body
               ∧ (http_status = 200 ∨ http_status = 429)%Z)
        ∧ get_mode_text (w_self (snd out))
          = (if status_api_available st
             then "✅ Kingshot API active (1 member/2 seconds)"
             else "❌ Kingshot API unavailable")
    | Raise e =>
        is_Exception e = false
        ∧ net w (posts w) = PostRaises e
        ∧ api_available (w_self (snd out)) = api_available (w_self w)
    end.
Proof.
  cbn zeta. unfold check_api_availability.
  destruct (net w (posts w)) as [e|latency http_status body] eqn:Hnet.
  - destruct (is_Exception e) eqn:He; cbn.
    + repeat split; try done. by intros (? & ? & ? & ? & _).
    + by repeat split.
  - cbn. split; [done|]. split; [done|]. split; [by repeat split|].
    split; [done|]. split; [done|]. split; [|done].
    unfold status_means_available. rewrite orb_true_iff, !Z.eqb_eq. split.
    + intros H. by eexists _, _, _.
    + by intros (? & ? & ? & [= _ <- _] & H).
Qed.

(** X7.  After a probe that found the service unavailable, a fetch sends
    nothing: [fetch_player_data] answers with the local rate-limit
    refusal or with the error 'Kingshot API is unavailable', and the
    number of posts and the window (but for eviction) stay as they are. *)
Theorem fetch_after_failed_probe (test_fid fid : string)
    (use_proxy : option string) (w : World) (st : ApiStatus) :
  fst (check_api_availability test_fid w) = Return st →
  status_api_available st = false →
  let w1 := snd (check_api_availability test_fid w) in
  posts (snd (fetch_player_data fid use_proxy w1)) = posts w1
  ∧ api_requests (w_self (snd (fetch_player_data fid use_proxy w1)))
    = evict (clock w1) (w_self w1)
  ∧ ∃ r, fst (fetch_player_data fid use_proxy w1) = Return r
         ∧ data r = None
         ∧ (status r = RateLimited
            ∨ (status r = Error ∧ error_message r = Some ApiUnavailable)).
Proof.
  intros Hret Hst. cbn zeta.
  pose proof (probe_flag test_fid w st Hret) as Hav.
  rewrite Hst in Hav.
  set (w1 := snd (check_api_availability test_fid w)) in *.
  destruct (fetch_window fid use_proxy w1) as (Hw & Hp & _).
  cbn zeta in Hw, Hp. unfold recorded in Hw. rewrite Hav in Hw, Hp.
  rewrite andb_false_r in Hw, Hp. rewrite app_nil_r in Hw.
  split; [lia|]. split; [done|].
  unfold fetch_player_data, fetch_player_data_body.
  assert (api_available (fst (_check_rate_limit (clock w1) (w_self w1))) = false)
    as Hav'.
  { unfold _check_rate_limit. cbn zeta. by destruct (_ <? _)%Z. }
  destruct (_check_rate_limit (clock w1) (w_self w1)) as [self [permitted wait]].
  cbn [fst] in Hav'. destruct permitted; cbn [negb].
  - cbn [w_self set_w_self]. rewrite Hav'. cbn.
    eexists. split; [done|]. split; [done|]. by right.
  - cbn. eexists. split; [done|]. split; [done|]. by left.
Qed.

Lemma fetch_after_failed_probe_witness :
  (∃ st, fst (check_api_availability "46765089" crowded_world) = Return st
         ∧ status_api_available st = false)
  ∧ posts (snd (fetch_player_data "1" None
                  (snd (check_api_availability "46765089" crowded_world))))
    = 1%nat.
Proof.
  split; [eexists; split; by vm_compute|].
  destruct (fetch_after_failed_probe "46765089" "1" None crowded_world
              {| status_api_available := false; status_api_url := api_url |})
    as (H & _).
  - by vm_compute.
  - reflexivity.
  - rewrite H. by vm_compute.
Defined.

End Availability.

(** ** Further properties of the consumer *)

Section Serving.

(** The consumer comes out of a callback that returned. *)
Lemma completion_handled (el : EventLoop) (tid : nat) (a : Operation)
    (held : option nat) :
  consistent el →
  tasks el !! tid = Some (TCallback a held) →
  ∃ d el1,
    description a = Some d
    ∧ run [Resume tid Returns] el = Some el1
    ∧ tasks el1 !! tid = Some TGet
    ∧ log_file (el_self el1)
      = log_file (el_self el) ++ ["Operation completed: " +:+ d]
    ∧ outbox el1 = outbox el
    ∧ current_operation (el_self el1) = None
    ∧ operation_queue (el_self el1) = operation_queue (el_self el).
Proof.
  intros Hc Ht. pose proof Hc as (_ & _ & _ & _ & Hok).
  destruct (Hok _ _ Ht) as ([d Hd] & _ & _). exists d.
  assert (tid < length (tasks el))%nat as Hlt by (by eapply lookup_lt_Some).
  destruct (release_objects held el) as (Hrt & Hrs & _).
  assert (outbox (release held el) = outbox el) as Hro by (by destruct held).
  set (el0 := finally_clause (el_log ("Operation completed: " +:+ d)
                                (release held el))).
  exists (set_tasks (<[tid := TGet]> (tasks el0)) el0).
  split; [done|]. split.
  { cbn [run].
    rewrite (step_resume tid (TCallback a held) Returns el el0 TGet); [done|done|].
    cbn [_process_operation_queue]. by rewrite Hd. }
  split.
  { cbn. apply list_lookup_insert_eq. by rewrite Hrt. }
  cbn. by rewrite Hrs, Hro.
Qed.

Lemma serve_one (el : EventLoop) (tid : nat) (b : Operation) (r : Awaited)
    (rest : list Operation) :
  consistent el →
  tasks el !! tid = Some TGet →
  operation_queue (el_self el) = b :: rest →
  well_formed b →
  handled r = true →
  ∃ el1,
    run (serve_events tid (b, r)) el = Some el1
    ∧ tasks el1 !! tid = Some TGet
    ∧ operation_queue (el_self el1) = rest
    ∧ current_operation (el_self el1) = None
    ∧ log_file (el_self el1) = log_file (el_self el) ++ serve_log (b, r)
    ∧ outbox el1 = outbox el ++ serve_outbox (b, r).
Proof.
  intros Hc Ht Hq [[d Hd] Hcb] Hr.
  destruct (dispatch_runs el tid b rest d Hc Ht Hq Hd Hcb)
    as (el2 & held & Hrun2 & Ht2 & _ & Hq2 & Hlog2 & Hout2).
  pose proof (run_consistent _ _ _ Hc Hrun2) as Hc2.
  unfold serve_events, serve_log, serve_outbox. cbn [fst snd].
  rewrite run_app, Hrun2, Hd. cbn [default].
  destruct r as [|e].
  - destruct (completion_handled el2 tid b held Hc2 Ht2)
      as (d' & el1 & Hd' & Hrun1 & Ht1 & Hlog1 & Hout1 & Hcur1 & Hq1).
    assert (d' = d) as -> by congruence.
    exists el1. rewrite Hlog1, Hlog2, Hout1, Hout2, Hq1, Hq2, app_nil_r.
    by rewrite <- app_assoc.
  - destruct (failure_handled el2 tid b held e Returns Hc2 Ht2 Hr)
      as (d' & el1 & Hd' & Hrun1 & Ht1 & Hlog1 & Hout1 & Hcur1 & Hq1).
    assert (d' = d) as -> by congruence.
    exists el1. rewrite Hlog1, Hlog2, Hout1, Hout2, Hq1, Hq2.
    rewrite <- app_assoc. by destruct (interaction b).
Qed.

Lemma serve_all (tid : nat) (jobs : list (Operation * Awaited)) :
  ∀ el,
    consistent el →
    tasks el !! tid = Some TGet →
    operation_queue (el_self el) = map fst jobs →
    Forall (λ job, well_formed (fst job) ∧ handled (snd job) = true) jobs →
    ∃ el1,
      run (flat_map (serve_events tid) jobs) el = Some el1
      ∧ consistent el1
      ∧ tasks el1 !! tid = Some TGet
      ∧ operation_queue (el_self el1) = []
      ∧ log_file (el_self el1)
        = log_file (el_self el) ++ flat_map serve_log jobs
      ∧ outbox el1 = outbox el ++ flat_map serve_outbox jobs.
Proof.
  induction jobs as [|[b r] jobs IH]; intros el Hc Ht Hq Hall.
  - exists el. cbn. by rewrite !app_nil_r.
  - apply Forall_cons in Hall as [[Hwf Hr] Hall]. cbn [fst snd] in *.
    destruct (serve_one el tid b r (map fst jobs) Hc Ht Hq Hwf Hr)
      as (el1 & Hrun1 & Ht1 & Hq1 & _ & Hlog1 & Hout1).
    pose proof (run_consistent _ _ _ Hc Hrun1) as Hc1.
    destruct (IH el1 Hc1 Ht1 Hq1 Hall)
      as (el2 & Hrun2 & Hc2 & Ht2 & Hq2 & Hlog2 & Hout2).
    exists el2. cbn [flat_map]. rewrite run_app, Hrun1.
    rewrite Hlog2, Hlog1, Hout2, Hout1, <- !app_assoc. done.
Qed.

(** X8.  The consumer serves a whole queue in order.  With the consumer
    waiting on a queue of operations that have a description and a
    callback, and whatever mix of returning and [Exception]-raising
    callbacks: each operation in turn is started and then completed or
    failed, one "Processing" line and one "completed"/"failed" line per
    operation in queue order, each failure sent to the interaction of its
    operation if it has one; at the end the queue is empty, the consumer
    is waiting again and every lock is free. *)
Theorem queue_served_in_order (el : EventLoop) (tid : nat)
    (jobs : list (Operation * Awaited)) :
  reachable el →
  tasks el !! tid = Some TGet →
  operation_queue (el_self el) = map fst jobs →
  Forall (λ job, well_formed (fst job) ∧ handled (snd job) = true) jobs →
  ∃ el1,
    run (flat_map (serve_events tid) jobs) el = Some el1
    ∧ tasks el1 !! tid = Some TGet
    ∧ operation_queue (el_self el1) = []
    ∧ log_file (el_self el1) = log_file (el_self el) ++ flat_map serve_log jobs
    ∧ outbox el1 = outbox el ++ flat_map serve_outbox jobs
    ∧ ∀ l, locks el1 !! l ≠ Some true.
Proof.
  intros Hreach Ht Hq Hall.
  destruct (serve_all tid jobs el (reachable_consistent el Hreach) Ht Hq Hall)
    as (el1 & Hrun & Hc1 & Ht1 & Hq1 & Hlog & Hout).
  exists el1. repeat (split; [done|]).
  intros l Hl. by apply (consistent_locks el1 tid TGet Hc1 Ht1 eq_refl) in Hl.
Qed.

Lemma queue_served_in_order_witness :
  reachable idle_two
  ∧ ∃ el1,
      run (flat_map (serve_events 0)
             [(set_was_queued false alliance_operation, Raises (Exception "boom"));
              (set_was_queued true second_operation, Returns)]) idle_two
      = Some el1
      ∧ operation_queue (el_self el1) = []
      ∧ outbox el1 = [(DiscordInteraction 1, "❌ Operation failed: boom")].
Proof.
  split; [by (exists [Submit alliance_operation; Submit second_operation; Resume 0 Returns])|].
  destruct (queue_served_in_order idle_two 0
              [(set_was_queued false alliance_operation, Raises (Exception "boom"));
               (set_was_queued true second_operation, Returns)])
    as (el1 & Hrun & _ & Hq & _ & Hout & _).
  - by (exists [Submit alliance_operation; Submit second_operation; Resume 0 Returns]).
  - by vm_compute.
  - by vm_compute.
  - repeat constructor; by eexists.
  - exists el1. split; [done|]. split; [done|]. rewrite Hout. by vm_compute.
Defined.

End Serving.

Section QueueDiscipline.

Lemma begin_operation_queue (operation : Operation) (el : EventLoop) :
  operation_queue (el_self (fst (begin_operation operation el)))
  = operation_queue (el_self el).
Proof.
  unfold begin_operation. set (el1 := set_el_self _ el).
  destruct (description operation) as [d|].
  2:{ destruct (outer_except_objects (KeyError "description") el1)
        as [(_ & _ & _ & _ & Hq) _]. by rewrite Hq. }
  set (el2 := el_log _ el1).
  assert (operation_queue (el_self (fst (invoke operation None el2)))
          = operation_queue (el_self el)) as Hinv.
  { destruct (invoke_cases operation None el2)
      as [[_ ->]|(_ & (_ & _ & _ & _ & Hq) & _)]; [done|]. by rewrite Hq. }
  destruct (alliance_id operation) as [k|]; [|done].
  destruct (truthy k); [|done].
  destruct (get_alliance_lock_self (str_key k) el2) as (_ & Hq & _).
  by destruct (get_alliance_lock (str_key k) el2).
Qed.

(** One run of the consumer leaves the queue alone or takes its head. *)
Lemma process_queue (t : Task) (r : Awaited) (el el' : EventLoop) (t' : Task) :
  _process_operation_queue t r el = Some (el', t') →
  operation_queue (el_self el') = operation_queue (el_self el)
  ∨ ∃ b, operation_queue (el_self el) = b :: operation_queue (el_self el').
Proof.
  intros Hres.
  assert (∀ held, operation_queue (el_self (release held el))
                  = operation_queue (el_self el)) as Hrel
    by (by intros [l|]).
  destruct t as [| |operation l|operation held|operation|d| |e0];
    destruct r as [|e]; cbn [_process_operation_queue] in Hres; try done;
    try (injection Hres as <- <-; by left).
  - destruct (operation_queue (el_self el)) as [|b rest] eqn:Hq; [done|].
    injection Hres as Hres. apply (f_equal fst) in Hres. cbn [fst] in Hres.
    subst el'. right. exists b. by rewrite begin_operation_queue.
  - injection Hres as Hres. apply (f_equal fst) in Hres. cbn [fst] in Hres.
    subst el'. left.
    by destruct (outer_except_objects e el) as [(_ & _ & _ & _ & ->) _].
  - destruct (locks el !! l) as [[]|]; try done.
    injection Hres as Hres. apply (f_equal fst) in Hres. cbn [fst] in Hres.
    subst el'. left. set (el1 := set_locks _ el).
    destruct (invoke_cases operation (Some l) el1)
      as [[_ ->]|(_ & (_ & _ & _ & _ & Hq) & _)]; [done|]. by rewrite Hq.
  - injection Hres as Hres. apply (f_equal fst) in Hres. cbn [fst] in Hres.
    subst el'. left.
    by destruct (inner_except_objects operation e el) as [(_ & _ & _ & _ & ->) _].
  - left. destruct (description operation).
    + injection Hres as <- <-. cbn. apply Hrel.
    + injection Hres as Hres. apply (f_equal fst) in Hres. cbn [fst] in Hres.
      subst el'.
      destruct (inner_except_objects operation (KeyError "description")
                  (release held el)) as [(_ & _ & _ & _ & ->) _].
      apply Hrel.
  - injection Hres as Hres. apply (f_equal fst) in Hres. cbn [fst] in Hres.
    subst el'. left.
    destruct (inner_except_objects operation e (release held el))
      as [(_ & _ & _ & _ & ->) _].
    apply Hrel.
Qed.

Lemma step_queue (ev : Event) (el el' : EventLoop) :
  step ev el = Some el' →
  match ev with
  | Submit operation_info =>
      ∃ queued, queued_as queued operation_info
                ∧ operation_queue (el_self el')
                  = operation_queue (el_self el) ++ [queued]
  | Resume _ _ =>
      operation_queue (el_self el') = operation_queue (el_self el)
      ∨ ∃ b, operation_queue (el_self el) = b :: operation_queue (el_self el')
  end.
Proof.
  intros Hstep. destruct ev as [operation_info|tid r]; cbn [step] in Hstep.
  - injection Hstep as <-. eexists. split; [by eexists|].
    unfold queue_operation.
    destruct (description (set_was_queued _ operation_info)); cbn [fst].
    + by rewrite start_queue_processor_queue.
    + done.
  - destruct (tasks el !! tid) as [t|]; [|done].
    destruct (_process_operation_queue t r el) as [[el1 t1]|] eqn:Hres; [|done].
    injection Hstep as <-. by apply process_queue in Hres.
Qed.

(** X9.  The queue is first in, first out through every run of the event
    loop: what is in the queue at the end, preceded by the operations the
    consumer took out meanwhile, is the queue of the beginning followed by
    the operations submitted meanwhile, in the order of their submission
    (each with its ['was_queued'] flag set).  Nothing is dropped, nothing
    overtakes. *)
Theorem queue_is_fifo (evs : list Event) (el el' : EventLoop) :
  run evs el = Some el' →
  ∃ taken added,
    taken ++ operation_queue (el_self el')
    = operation_queue (el_self el) ++ added
    ∧ Forall2 queued_as added (submissions evs).
Proof.
  revert el. induction evs as [|ev evs IH]; intros el Hrun; cbn [run] in Hrun.
  - injection Hrun as <-. exists [], []. by rewrite app_nil_r.
  - destruct (step ev el) as [el1|] eqn:Hstep; [|done].
    destruct (IH el1 Hrun) as (taken & added & Heq & Hadd).
    apply step_queue in Hstep. destruct ev as [operation_info|tid r].
    + destruct Hstep as (queued & Hqueued & Hq).
      exists taken, (queued :: added). split.
      * rewrite Heq, Hq, <- app_assoc. done.
      * cbn. by constructor.
    + destruct Hstep as [Hq|[b Hq]].
      * exists taken, added. by rewrite Heq, Hq.
      * exists (b :: taken), added. split; [|done].
        cbn. rewrite Heq, Hq. done.
Qed.

Lemma queue_is_fifo_witness :
  run two_queued_events boot = Some two_queued
  ∧ ∃ taken added,
      taken ++ operation_queue (el_self two_queued)
      = operation_queue (el_self boot) ++ added
      ∧ Forall2 queued_as added [alliance_operation; second_operation].
Proof.
  assert (run two_queued_events boot = Some two_queued) as Hrun
    by (by vm_compute).
  split; [exact Hrun|].
  exact (queue_is_fifo two_queued_events boot two_queued Hrun).
Defined.

End QueueDiscipline.

Section Restart.

(** X10.  A consumer that has finished is replaced at the next
    submission, and the new one starts with the oldest operation still
    queued.  When no task is alive, [queue_operation] of an operation with
    a description creates a new task and makes it the handler's; once
    started, that task takes the head of the queue, be it an operation
    left over from before, and reaches its callback. *)
Theorem consumer_restarted (el : EventLoop) (operation_info : Operation) :
  reachable el →
  no_live_processor el = true →
  is_Some (description operation_info) →
  let el1 := fst (queue_operation operation_info el) in
  let tid := length (tasks el) in
  tasks el1 = tasks el ++ [TCreated]
  ∧ queue_processor_task (el_self el1) = Some tid
  ∧ ∀ b rest,
      operation_queue (el_self el1) = b :: rest →
      well_formed b →
      ∃ el2 held,
        run (Resume tid Returns :: dispatch_events tid b) el1 = Some el2
        ∧ tasks el2 !! tid = Some (TCallback b held)
        ∧ current_operation (el_self el2) = Some b
        ∧ operation_queue (el_self el2) = rest.
Proof.
  intros Hreach Hno [d Hd]. cbn zeta.
  pose proof (reachable_consistent el Hreach) as Hc.
  pose proof (queue_operation_consistent operation_info el Hc) as Hc1.
  rewrite (queue_operation_described _ _ el Hd) in *. cbn [fst] in *.
  set (el0 := el_log _ _) in *.
  assert (no_live_processor el0 = true) as Hno0 by done.
  assert (start_queue_processor el0
          = el_log "Queue processor started"
              (set_el_self
                 (set_queue_processor_task (Some (length (tasks el0))) (el_self el0))
                 (set_tasks (tasks el0 ++ [TCreated]) el0))) as Hstart.
  { unfold start_queue_processor. by rewrite Hno0. }
  set (el1 := start_queue_processor el0) in *.
  assert (tasks el1 = tasks el ++ [TCreated]) as Ht1 by (by rewrite Hstart).
  split; [done|]. split; [by rewrite Hstart|].
  intros b rest Hq [[db Hdb] Hcb].
  assert (tasks el1 !! length (tasks el) = Some TCreated) as Hcreated.
  { rewrite Ht1, lookup_app_r by done. by rewrite Nat.sub_diag. }
  set (el2 := el_log "Queue processor starting..." el1).
  set (el3 := set_tasks (<[length (tasks el) := TGet]> (tasks el2)) el2).
  assert (step (Resume (length (tasks el)) Returns) el1 = Some el3) as Hstep
    by (by apply (step_resume _ TCreated)).
  pose proof (step_consistent _ _ _ Hc1 Hstep) as Hc3.
  assert (tasks el3 !! length (tasks el) = Some TGet) as Ht3.
  { subst el3. cbn. apply list_lookup_insert_eq. rewrite Ht1, length_app. cbn. lia. }
  destruct (dispatch_runs el3 (length (tasks el)) b rest db Hc3 Ht3 Hq Hdb Hcb)
    as (el4 & held & Hrun & Ht4 & Hcur & Hq4 & _).
  exists el4, held. cbn [run]. by rewrite Hstep.
Qed.

Lemma consumer_restarted_witness :
  let el := after_callback_raised CancelledError in
  let b := set_was_queued true second_operation in
  let tid := length (tasks el) in
  reachable el
  ∧ no_live_processor el = true
  ∧ tasks (fst (queue_operation third_operation el)) = tasks el ++ [TCreated]
  ∧ ∃ el2 held,
      run (Resume tid Returns :: dispatch_events tid b)
        (fst (queue_operation third_operation el)) = Some el2
      ∧ tasks el2 !! tid = Some (TCallback b held).
Proof.
  cbv zeta.
  assert (reachable (after_callback_raised CancelledError)) as Hreach.
  { exists (two_queued_events ++ [Resume 0 (Raises CancelledError)]).
    vm_compute. reflexivity. }
  assert (no_live_processor (after_callback_raised CancelledError) = true)
    as Hno by (vm_compute; reflexivity).
  assert (is_Some (description third_operation)) as Hd
    by (eexists; reflexivity).
  destruct (consumer_restarted (after_callback_raised CancelledError)
              third_operation Hreach Hno Hd) as (Ht & _ & H).
  split; [exact Hreach|]. split; [exact Hno|]. split; [exact Ht|].
  destruct (H (set_was_queued true second_operation)
              [set_was_queued true third_operation])
    as (el2 & held & Hrun & Htid & _).
  - vm_compute. reflexivity.
  - split; eexists; reflexivity.
  - exists el2, held. split; [exact Hrun|exact Htid].
Defined.

(** X11.  An operation dict without ['description'].  [queue_operation]
    puts it in the queue and then raises [KeyError]: nothing is logged and
    no consumer is started, even when none is alive.  When the consumer
    takes it, the [KeyError] is logged as a processor error and followed
    by the one-second pause; the consumer then waits for the next
    operation, but [current_operation] still names the dict, so
    [get_queue_info] reports [is_processing] although nothing runs. *)
Theorem undescribed_operation_effects (operation_info : Operation) :
  description operation_info = None →
  (∀ el,
     let n := length (operation_queue (el_self el)) in
     let out := queue_operation operation_info el in
     snd out = Raise (KeyError "description")
     ∧ operation_queue (el_self (fst out))
       = operation_queue (el_self el) ++ [set_was_queued (0 <? n) operation_info]
     ∧ tasks (fst out) = tasks el
     ∧ queue_processor_task (el_self (fst out)) = queue_processor_task (el_self el)
     ∧ log_file (el_self (fst out)) = log_file (el_self el))
  ∧ (∀ el tid rest,
       tasks el !! tid = Some TGet →
       operation_queue (el_self el) = operation_info :: rest →
       ∃ el1 el2,
         step (Resume tid Returns) el = Some el1
         ∧ tasks el1 !! tid = Some (TSleep 1)
         ∧ step (Resume tid Returns) el1 = Some el2
         ∧ tasks el2 !! tid = Some TGet
         ∧ operation_queue (el_self el2) = rest
         ∧ log_file (el_self el2)
           = log_file (el_self el) ++ ["Queue processor error: 'description'"]
         ∧ current_operation (el_self el2) = Some operation_info
         ∧ is_processing (snd (get_queue_info (el_self el2))) = true).
Proof.
  intros Hd. split.
  - intros el. cbn zeta. unfold queue_operation. cbn. by rewrite Hd.
  - intros el tid rest Ht Hq.
    assert (tid < length (tasks el))%nat as Hlt by (by eapply lookup_lt_Some).
    set (el0 := el_log "Queue processor error: 'description'"
                  (set_el_self (set_current_operation (Some operation_info)
                     (el_self (set_el_self
                        (set_operation_queue rest (el_self el)) el)))
                     (set_el_self (set_operation_queue rest (el_self el)) el))).
    set (el1 := set_tasks (<[tid := TSleep 1]> (tasks el0)) el0).
    assert (step (Resume tid Returns) el = Some el1) as Hstep1.
    { apply (step_resume tid TGet); [done|].
      cbn [_process_operation_queue]. rewrite Hq.
      unfold begin_operation. by rewrite Hd. }
    assert (tasks el1 !! tid = Some (TSleep 1)) as Ht1.
    { subst el1. cbn. by apply list_lookup_insert_eq. }
    exists el1, (set_tasks (<[tid := TGet]> (tasks el1)) el1).
    split; [done|]. split; [done|]. split.
    { by apply (step_resume tid (TSleep 1)). }
    split.
    { cbn. apply list_lookup_insert_eq. by rewrite length_insert. }
    done.
Qed.

Lemma undescribed_operation_effects_witness :
  description undescribed_operation = None
  ∧ snd (queue_operation undescribed_operation boot)
    = Raise (KeyError "description")
  ∧ tasks (fst (queue_operation undescribed_operation boot)) = [].
Proof.
  split; [done|].
  destruct (undescribed_operation_effects undescribed_operation eq_refl)
    as [H _].
  destruct (H boot) as (H1 & _ & H3 & _). split; [exact H1|exact H3].
Defined.

End Restart.

Section Registry.

(** How one run of code changes the lock registry: not at all, or by one
    new key bound to a new lock object. *)
Inductive registry_step (el el' : EventLoop) : Prop :=
| registry_same :
    alliance_locks (el_self el') = alliance_locks (el_self el) →
    length (locks el') = length (locks el) →
    registry_step el el'
| registry_new (k : string) :
    alliance_locks (el_self el) !! k = None →
    alliance_locks (el_self el')
    = <[k := length (locks el)]> (alliance_locks (el_self el)) →
    length (locks el') = S (length (locks el)) →
    registry_step el el'.

Lemma registry_step_frame (el0 el el' : EventLoop) :
  alliance_locks (el_self el) = alliance_locks (el_self el0) →
  length (locks el) = length (locks el0) →
  registry_step el el' → registry_step el0 el'.
Proof.
  intros Ha Hl [Ha' Hl'|k Hk Ha' Hl'].
  - apply registry_same; congruence.
  - apply (registry_new _ _ k); congruence.
Qed.

Lemma outer_except_registry (e : PyExc) (el : EventLoop) :
  registry_step el (fst (outer_except e el)).
Proof.
  unfold outer_except. destruct e; cbn; try (by apply registry_same).
  all: destruct (is_Exception _); by apply registry_same.
Qed.

Lemma inner_except_registry (operation : Operation) (e : PyExc) (el : EventLoop) :
  registry_step el (fst (inner_except operation e el)).
Proof.
  unfold inner_except. destruct (is_Exception e).
  - destruct (description operation).
    + destruct (interaction operation); by apply registry_same.
    + apply (registry_step_frame el (finally_clause el)); [done|done|].
      apply outer_except_registry.
  - apply (registry_step_frame el (finally_clause el)); [done|done|].
    apply outer_except_registry.
Qed.

Lemma invoke_registry (operation : Operation) (held : option nat) (el : EventLoop) :
  registry_step el (fst (invoke operation held el)).
Proof.
  unfold invoke. destruct (callback operation); [by apply registry_same|].
  destruct (inner_except_registry operation (KeyError "callback") (release held el))
    as [Ha Hl|k Hk Ha Hl];
    destruct (release_objects held el) as (_ & Hs & Hlen);
    rewrite Hs, Hlen in *.
  - by apply registry_same.
  - by eapply registry_new.
Qed.

Lemma get_alliance_lock_registry (k : string) (el : EventLoop) :
  registry_step el (fst (get_alliance_lock k el)).
Proof.
  unfold get_alliance_lock.
  destruct (alliance_locks (el_self el) !! k) eqn:Hk; cbn.
  - by apply registry_same.
  - apply (registry_new _ _ k); [done|done|].
    cbn. rewrite length_app. cbn. lia.
Qed.

Lemma begin_operation_registry (operation : Operation) (el : EventLoop) :
  registry_step el (fst (begin_operation operation el)).
Proof.
  unfold begin_operation.
  set (el1 := set_el_self _ el).
  apply (registry_step_frame el el1); [done|done|].
  destruct (description operation); [|apply outer_except_registry].
  set (el2 := el_log _ el1).
  apply (registry_step_frame el1 el2); [done|done|].
  destruct (alliance_id operation) as [k|]; [|apply invoke_registry].
  destruct (truthy k); [|apply invoke_registry].
  pose proof (get_alliance_lock_registry (str_key k) el2) as H.
  by destruct (get_alliance_lock (str_key k) el2).
Qed.

Local Ltac fst_of H :=
  match type of H with
  | Some ?x = Some (?a, _) => assert (a = fst x) as -> by (by injection H as ->)
  end.

Lemma process_registry (t : Task) (r : Awaited) (el el1 : EventLoop) (t1 : Task) :
  _process_operation_queue t r el = Some (el1, t1) → registry_step el el1.
Proof.
  intros Hres.
  assert (∀ held, alliance_locks (el_self (release held el))
                  = alliance_locks (el_self el)
                  ∧ length (locks (release held el)) = length (locks el)) as Hrel.
  { intros held. destruct (release_objects held el) as (_ & -> & ->). done. }
  destruct t as [| |operation l|operation held|operation|d| |e0],
    r as [|e]; cbn in Hres; try done.
  - injection Hres as <- <-. by apply registry_same.
  - injection Hres as <- <-. by apply registry_same.
  - destruct (operation_queue (el_self el)) as [|operation rest]; [done|].
    set (el0 := set_el_self _ el) in Hres.
    pose proof (begin_operation_registry operation el0) as H.
    fst_of Hres.
    cbn. by apply (registry_step_frame el el0).
  - pose proof (outer_except_registry e el) as H.
    by fst_of Hres.
  - destruct (locks el !! l) as [[|]|] eqn:Hl; try done.
    set (el0 := set_locks _ el) in Hres.
    pose proof (invoke_registry operation (Some l) el0) as H.
    fst_of Hres. cbn.
    apply (registry_step_frame el el0); [done| |done].
    subst el0. cbn. by rewrite length_insert.
  - pose proof (inner_except_registry operation e el) as H.
    by fst_of Hres.
  - destruct (Hrel held) as [Ha Hl].
    destruct (description operation).
    + injection Hres as <- <-. apply registry_same; [exact Ha|exact Hl].
    + fst_of Hres. apply registry_same; [exact Ha|exact Hl].
  - destruct (Hrel held) as [Ha Hl].
    pose proof (inner_except_registry operation e (release held el)) as H.
    fst_of Hres.
    apply (registry_step_frame el (release held el)); [exact Ha|exact Hl|exact H].
  - injection Hres as <- <-. by apply registry_same.
  - injection Hres as <- <-. by apply registry_same.
  - injection Hres as <- <-. by apply registry_same.
  - injection Hres as <- <-. by apply registry_same.
Qed.

Lemma queue_operation_registry (operation_info : Operation) (el : EventLoop) :
  registry_step el (fst (queue_operation operation_info el)).
Proof.
  unfold queue_operation.
  destruct (description (set_was_queued _ operation_info)); cbn [fst].
  - unfold start_queue_processor. destruct (no_live_processor _);
      by apply registry_same.
  - by apply registry_same.
Qed.

Lemma step_changes_registry (ev : Event) (el el' : EventLoop) :
  step ev el = Some el' → registry_step el el'.
Proof.
  intros Hstep. destruct ev as [operation_info|tid r]; cbn in Hstep.
  - injection Hstep as <-. apply queue_operation_registry.
  - destruct (tasks el !! tid) as [t|] eqn:Ht; [|done].
    destruct (_process_operation_queue t r el) as [[el1 t1]|] eqn:Hres; [|done].
    injection Hstep as <-.
    apply (registry_step_frame el el); [done|done|].
    destruct (process_registry _ _ _ _ _ Hres) as [Ha Hl|k Hk Ha Hl].
    + by apply registry_same.
    + by apply (registry_new _ _ k).
Qed.

Lemma registry_step_inj (el el' : EventLoop) :
  registry_ok el → registry_inj el → registry_step el el' → registry_inj el'.
Proof.
  intros Hok Hinj [Ha _|k Hk Ha _]; unfold registry_inj; rewrite Ha.
  - apply Hinj.
  - intros k1 k2 l H1 H2.
    destruct (decide (k1 = k)) as [->|Hn1], (decide (k2 = k)) as [->|Hn2];
      [done| | |].
    + rewrite lookup_insert_eq in H1. injection H1 as <-.
      rewrite lookup_insert_ne in H2 by done. apply Hok in H2. lia.
    + rewrite lookup_insert_eq in H2. injection H2 as <-.
      rewrite lookup_insert_ne in H1 by done. apply Hok in H1. lia.
    + rewrite lookup_insert_ne in H1, H2 by done. by eapply Hinj.
Qed.

Lemma run_registry_inj (evs : list Event) :
  ∀ el el', consistent el → registry_inj el → run evs el = Some el' →
            registry_inj el'.
Proof.
  induction evs as [|ev evs IH]; intros el el' Hc Hinj Hrun; cbn in Hrun.
  - by injection Hrun as <-.
  - destruct (step ev el) as [el1|] eqn:Hstep; [|done].
    apply (IH el1); [by eapply step_consistent| |done].
    eapply registry_step_inj; [apply Hc|done|by apply (step_changes_registry ev)].
Qed.

Lemma reachable_registry_inj (el : EventLoop) : reachable el → registry_inj el.
Proof.
  intros [evs Hrun]. eapply run_registry_inj; [apply boot_consistent| |done].
  intros k1 k2 l H1. by cbn in H1.
Qed.

(** X12.  Every group has a lock of its own.  In every reachable state no
    two keys of the registry name the same lock object, so a lock that is
    held is held by an operation of the very group whose key names it;
    asking for the lock of a key twice gives the same lock and changes
    nothing the second time; and the locks handed out for two different
    keys are different objects. *)
Theorem groups_have_own_locks (el : EventLoop) :
  reachable el →
  registry_inj el
  ∧ (∀ i operation l k,
       tasks el !! i = Some (TCallback operation (Some l)) →
       alliance_locks (el_self el) !! k = Some l →
       group_key operation = Some k)
  ∧ (∀ k, get_alliance_lock k (fst (get_alliance_lock k el))
          = get_alliance_lock k el)
  ∧ (∀ k1 k2, k1 ≠ k2 →
       snd (get_alliance_lock k1 el)
       ≠ snd (get_alliance_lock k2 (fst (get_alliance_lock k1 el)))).
Proof.
  intros Hreach.
  pose proof (reachable_consistent el Hreach) as (Hh & Hone & Hreg & Hlk & Hok).
  pose proof (reachable_registry_inj el Hreach) as Hinj.
  split; [done|]. split; [|split].
  - intros i operation l k Hi Hk.
    pose proof (Hok i _ Hi) as (_ & _ & Hg). cbn in Hg.
    destruct (group_key operation) as [k'|]; [|done].
    destruct Hg as (l0 & [= <-] & Hk'). f_equal. by eapply Hinj.
  - intros k. unfold get_alliance_lock at 2 3.
    destruct (alliance_locks (el_self el) !! k) as [l|] eqn:Hk; cbn [fst].
    + unfold get_alliance_lock. by rewrite Hk.
    + unfold get_alliance_lock. cbn. by rewrite lookup_insert_eq.
  - intros k1 k2 Hne Heq.
    destruct (get_alliance_lock_spec k1 el Hreg) as (Hk1 & Hreg1 & _).
    pose proof (registry_step_inj _ _ Hreg Hinj
                  (get_alliance_lock_registry k1 el)) as Hinj1.
    cbn zeta in *. set (el1 := fst (get_alliance_lock k1 el)) in *.
    destruct (get_alliance_lock_spec k2 el1 Hreg1) as (Hk2 & Hreg2 & Hkeep & _).
    pose proof (registry_step_inj _ _ Hreg1 Hinj1
                  (get_alliance_lock_registry k2 el1)) as Hinj2.
    cbn zeta in *. apply Hkeep in Hk1. rewrite Heq in Hk1.
    apply Hne. by eapply Hinj2.
Qed.

Lemma groups_have_own_locks_witness :
  reachable alliance_running
  ∧ snd (get_alliance_lock "7" alliance_running)
    ≠ snd (get_alliance_lock "8" (fst (get_alliance_lock "7" alliance_running))).
Proof.
  assert (reachable alliance_running) as Hreach
    by (exists alliance_events; by vm_compute).
  split; [done|].
  destruct (groups_have_own_locks alliance_running Hreach) as (_ & _ & _ & H).
  by apply H.
Defined.

End Registry.

Section BatchLock.

Lemma get_alliance_lock_consistent (k : string) (el : EventLoop) :
  consistent el → consistent (fst (get_alliance_lock k el)).
Proof.
  intros (Hh & Hone & Hreg & Hlk & Hok).
  destruct (get_alliance_lock_spec k el Hreg)
    as (_ & Hreg' & Hkeep & Ht & Hq & _ & Hsame).
  cbn zeta in *. set (el' := fst (get_alliance_lock k el)) in *.
  unfold consistent. rewrite Ht, Hq.
  split; [done|]. split; [done|]. split; [done|]. split.
  - intros l. by rewrite Hsame.
  - intros i t Hi. specialize (Hok i t Hi).
    destruct t as [| |operation l|operation held| | | |]; try done; cbn in *.
    + destruct Hok as (Hd & k' & Hg & Hl). split; [done|].
      exists k'. split; [done|]. by apply Hkeep.
    + destruct Hok as (Hd & Hcb & Hg). split; [done|]. split; [done|].
      destruct (group_key operation) as [k'|]; [|done].
      destruct Hg as (l & -> & Hl). exists l. split; [done|]. by apply Hkeep.
Qed.

Lemma run_batch_frame (fids : list string)
    (progress_callback : option ProgressCallback) (el : EventLoop) (env : World) :
  let el' := snd (fst (run_batch fids progress_callback el env)) in
  locks el' = locks el
  ∧ tasks el' = tasks el
  ∧ outbox el' = outbox el
  ∧ same_scheduler (el_self el) (el_self el').
Proof.
  cbn zeta. unfold run_batch, _fetch_batch_internal. cbn.
  split; [done|]. split; [done|]. split; [done|].
  apply (batch_loop_spec progress_callback (Z.of_nat (length fids)) fids 0%Z []
           (set_w_self (el_self el) env)).
Qed.

(** The state in which a batch that took lock [l] leaves the event loop. *)
Lemma locked_batch_frame (fids : list string)
    (progress_callback : option ProgressCallback) (l : nat)
    (el : EventLoop) (env : World) :
  locks el !! l = Some false →
  let el' := release (Some l)
               (snd (fst (run_batch fids progress_callback
                            (set_locks (<[l := true]> (locks el)) el) env))) in
  locks el' = locks el
  ∧ tasks el' = tasks el
  ∧ same_scheduler (el_self el) (el_self el').
Proof.
  intros Hl. cbn zeta.
  destruct (run_batch_frame fids progress_callback
              (set_locks (<[l := true]> (locks el)) el) env)
    as (Hlocks & Htasks & _ & Hs).
  cbn zeta in *.
  set (el3 := snd (fst (run_batch _ _ _ _))) in *.
  split; [|split; [exact Htasks|exact Hs]].
  change (<[l := false]> (locks el3) = locks el). rewrite Hlocks.
  change (<[l := false]> (<[l := true]> (locks el)) = locks el).
  by rewrite list_insert_insert_eq, list_insert_id.
Qed.

(** X13.  A direct call of [fetch_player_batch], in any reachable state,
    when it ends (returning or raising): the lock it took for a truthy
    [alliance_id] is released again, so every lock is locked after the call
    exactly when it was before; tasks, queue and current operation are as
    before, no key of the registry changed its lock, and the invariant of
    the event loop holds in the state it leaves.  Without an [alliance_id]
    (or with an empty one) no lock object and no key is even created. *)
Theorem fetch_player_batch_releases (fids : list string)
    (progress_callback : option ProgressCallback) (alliance_id : option string)
    (el : EventLoop) (env : World) :
  reachable el →
  ∀ r el' env',
    fetch_player_batch fids progress_callback alliance_id el env
    = Some (r, el', env') →
    consistent el' ∧ registry_inj el'
    ∧ (∀ l, locks el' !! l = Some true ↔ locks el !! l = Some true)
    ∧ tasks el' = tasks el
    ∧ operation_queue (el_self el') = operation_queue (el_self el)
    ∧ current_operation (el_self el') = current_operation (el_self el)
    ∧ (∀ k l, alliance_locks (el_self el) !! k = Some l →
              alliance_locks (el_self el') !! k = Some l)
    ∧ match alliance_id with
      | Some k =>
          if String.eqb k EmptyString
          then locks el' = locks el
               ∧ alliance_locks (el_self el') = alliance_locks (el_self el)
          else ∃ l, alliance_locks (el_self el') !! k = Some l
                    ∧ locks el' !! l = Some false
      | None => locks el' = locks el
                ∧ alliance_locks (el_self el') = alliance_locks (el_self el)
      end.
Proof.
  intros Hreach r el' env' Hcall.
  pose proof (reachable_consistent el Hreach) as Hc.
  pose proof (reachable_registry_inj el Hreach) as Hinj.
  assert (∀ r el' env',
            run_batch fids progress_callback el env = (r, el', env') →
            consistent el' ∧ registry_inj el'
            ∧ (∀ l, locks el' !! l = Some true ↔ locks el !! l = Some true)
            ∧ tasks el' = tasks el
            ∧ operation_queue (el_self el') = operation_queue (el_self el)
            ∧ current_operation (el_self el') = current_operation (el_self el)
            ∧ (∀ k l, alliance_locks (el_self el) !! k = Some l →
                      alliance_locks (el_self el') !! k = Some l)
            ∧ locks el' = locks el
            ∧ alliance_locks (el_self el') = alliance_locks (el_self el))
    as Hplain.
  { intros r0 el0 env0 Hrun.
    destruct (run_batch_frame fids progress_callback el env)
      as (Hl & Ht & _ & Hq & Hcur & Ha & Hqp & _).
    rewrite Hrun in *. cbn [fst snd] in *.
    split; [by apply (consistent_frame el)|].
    split; [unfold registry_inj; by rewrite Ha|].
    split; [by rewrite Hl|]. split; [done|]. split; [done|]. split; [done|].
    split; [by rewrite Ha|]. done. }
  unfold fetch_player_batch in Hcall.
  destruct alliance_id as [k|].
  - destruct (String.eqb k EmptyString) eqn:Hk; cbn [negb] in Hcall.
    + apply (inj Some) in Hcall.
      destruct (Hplain _ _ _ Hcall) as (H1 & H2 & H3 & H4 & H5 & H6 & H7 & H8).
      done.
    + destruct Hc as (Hh & Hone & Hreg & Hlk & Hok).
      pose proof (get_alliance_lock_consistent k el
                    (conj Hh (conj Hone (conj Hreg (conj Hlk Hok))))) as Hc1.
      pose proof (registry_step_inj _ _ Hreg Hinj
                    (get_alliance_lock_registry k el)) as Hinj1.
      destruct (get_alliance_lock_spec k el Hreg)
        as (Hk1 & _ & Hkeep & Ht1 & _ & _ & Hsame).
      destruct (get_alliance_lock_self k el) as (Hcur1 & Hq1 & _).
      cbn zeta in *.
      destruct (get_alliance_lock k el) as [el1 l]. cbn [fst snd] in *.
      destruct (locks el1 !! l) as [[|]|] eqn:Hl; try done.
      destruct (locked_batch_frame fids progress_callback l el1 env Hl)
        as (Hlocks & Htasks & Hq & Hcur & Ha & Hqp & _).
      cbn zeta in *.
      destruct (run_batch fids progress_callback _ env) as [[r0 el3] env3].
      injection Hcall as <- <- <-. cbn [fst snd] in *.
      change (set_locks (<[l := false]> (locks el3)) el3)
        with (release (Some l) el3).
      split; [by apply (consistent_frame el1)|].
      split; [unfold registry_inj; by rewrite Ha|].
      split; [intros l'; by rewrite Hlocks|].
      split; [congruence|]. split; [congruence|]. split; [congruence|].
      split; [intros k' l' Hk'; rewrite Ha; by apply Hkeep|].
      exists l. rewrite Ha, Hlocks. done.
  - apply (inj Some) in Hcall.
    destruct (Hplain _ _ _ Hcall) as (H1 & H2 & H3 & H4 & H5 & H6 & H7 & H8).
    done.
Qed.

Lemma fetch_player_batch_releases_witness :
  reachable alliance_running
  ∧ ∃ r el' env',
      fetch_player_batch ["101"] None (Some "8") alliance_running busy_world
      = Some (r, el', env')
      ∧ tasks el' = tasks alliance_running
      ∧ ∃ l, alliance_locks (el_self el') !! "8" = Some l
             ∧ locks el' !! l = Some false.
Proof.
  assert (reachable alliance_running) as Hreach
    by (exists alliance_events; by vm_compute).
  split; [done|].
  destruct (fetch_player_batch ["101"] None (Some "8") alliance_running
              busy_world) as [[[r el'] env']|] eqn:Hcall;
    [|by vm_compute in Hcall].
  exists r, el', env'. split; [done|].
  destruct (fetch_player_batch_releases _ _ _ _ _ Hreach r el' env' Hcall)
    as (_ & _ & _ & Ht & _ & _ & _ & Hl).
  split; [exact Ht|exact Hl].
Defined.



End BatchLock.
